(** * tensor_format.ts: rendering a tensor as nested-bracket text

    A shallow embedding of [src/tensor_format.ts] (tfjs-core) and the
    properties of its output.

    - A TypedArray is a [list] of numbers; a read past its end is
      [undefined], modelled by [None] of the list lookup [!!].
    - A function of the source that can throw a [TypeError] (a method call
      on [undefined]) returns an [option]: [None] stands for "no value is
      returned".
    - Shapes, strides and column widths are natural numbers, as the data
      model of the formatter has them (sizes are non-negative integers).
    - The three conversions of the JavaScript runtime the formatter calls
      on a number ([toFixed], [parseFloat], [toString]) are an interface,
      [JsNumber]; module [Decimal] below implements it for numbers given
      by a decimal expansion. *)

From Stdlib Require Import Ascii String.
From stdpp Require Import base option list strings numbers pretty.

#[local] Arguments String.append !_ _ / : simpl nomatch.

(** ** The JavaScript runtime *)

(** [Number.prototype.toFixed], the global [parseFloat] and
    [Number.prototype.toString] (also what a template literal applies to a
    number). *)
Class JsNumber (number : Type) := {
  toFixed : number → nat → string;
  parseFloat : string → number;
  toString : number → string
}.

(** The line feed, written ['\n'] in the source. *)
Definition LF : string := String "010"%char "".

(** [s.repeat(n)]. *)
Fixpoint repeatString (s : string) (n : nat) : string :=
  match n with
  | 0 => ""
  | S n' => s +:+ repeatString s n'
  end.

(** [array.join(sep)] on an array of strings. *)
Definition join (sep : string) (l : list string) : string :=
  String.concat sep l.

(** [s.slice(0, n)] and [s.slice(n)]. *)
Definition takeString (n : nat) (s : string) : string := String.substring 0 n s.
Definition dropString (n : nat) (s : string) : string :=
  String.substring n (String.length s - n) s.

(** [s.endsWith(suffix)]. *)
Definition endsWith (suffix s : string) : bool :=
  (String.length suffix <=? String.length s) &&
  String.eqb (dropString (String.length s - String.length suffix) s) suffix.

Definition isZero (c : ascii) : bool := Ascii.eqb c "0".

Definition isDigit (c : ascii) : bool :=
  let n := nat_of_ascii c in (48 <=? n) && (n <=? 57).

(** [vals.subarray(begin, end)] for non-negative bounds: both are clamped to
    the length, and an [end] before [begin] gives the empty view. *)
Definition subarray {A} (vals : list A) (begin end_ : nat) : list A :=
  take (end_ - begin) (drop begin vals).

(** [for (let i = start; i < start + count; i++) s = body(i, s)], where the
    body may throw. *)
Definition forLoop {St} (body : nat → St → option St) : nat → nat → St → option St :=
  fix go (count i : nat) (s : St) : option St :=
    match count with
    | 0 => Some s
    | S count' => s' ← body i s; go count' (S i) s'
    end.

(** ** ./util *)

Module Util.

(** Modelled from the spec: [computeStrides] of [./util], which is not
    among the sources. "Output: stride vector, same length, where the last
    stride is 1 and each preceding stride is the product of all sizes to
    its right." *)
Fixpoint computeStrides (shape : list nat) : list nat :=
  match shape with
  | [] => []
  | _ :: rest => foldr Nat.mul 1 rest :: computeStrides rest
  end.

(** Modelled from the spec: [sizeFromShape] of [./util], which is not
    among the sources. The element count of a shape is "the product of all
    shape dimensions". *)
Definition sizeFromShape (shape : list nat) : nat :=
  foldr Nat.mul 1 shape.

(** Modelled from the spec: [rightPad] of [./util], which is not among the
    sources. "right-pad the result with trailing spaces to reach the
    requested width (no-op if the string is already that long or longer -
    padding never truncates)". The width is [None] when the caller read it
    past the end of the width vector: no width is requested then. *)
Definition rightPad (a : string) (size : option nat) : string :=
  match size with
  | Some n => a +:+ repeatString " " (n - String.length a)
  | None => a
  end.

End Util.

(** ** The formatter *)

Section TensorFormat.

Context {number : Type} `{JsNumber number}.

(** [computeStrides] is imported from [./util]; the formatter is
    parametrised by it. *)
Variable computeStrides : list nat → list nat.

(** Maximum number of values before we decide to show ellipsis. *)
Definition FORMAT_LIMIT_NUM_VALS : nat := 20.
(** Number of first and last values to show when displaying a, b,...,y, z. *)
Definition FORMAT_NUM_FIRST_LAST_VALS : nat := 3.
(** Number of significant digits to show. *)
Definition FORMAT_NUM_SIG_DIGITS : nat := 7.

(** What [valToString] receives: [number|[number, number]]. The second
    component of a tuple is [undefined] when [createComplexTuples] read it
    past the end of the buffer. *)
Inductive element :=
  | Scalar (val : number)
  | Tuple (re : number) (im : option number).

Definition isComplex (dtype : string) : bool := String.eqb dtype "complex64".

Fixpoint createComplexTuples (vals : list number) : list element :=
  match vals with
  | [] => []
  | [re] => [Tuple re None]
  | re :: im :: rest => Tuple re (Some im) :: createComplexTuples rest
  end.

(** [parseFloat(x.toFixed(FORMAT_NUM_SIG_DIGITS))] converted to a string. *)
Definition numToString (x : number) : string :=
  toString (parseFloat (toFixed x FORMAT_NUM_SIG_DIGITS)).

(** [val] is [None] for [undefined]: [val.toFixed] throws then, as does
    [val[1].toFixed] on a tuple without its second component. *)
Definition valToString (val : option element) (pad : option nat) : option string :=
  match val with
  | None => None
  | Some (Tuple re im) =>
      im ← im;
      Some (Util.rightPad (numToString re +:+ " + " +:+ numToString im +:+ "j") pad)
  | Some (Scalar val) => Some (Util.rightPad (numToString val) pad)
  end.

(** [new Array(numCols).fill(0)]: [new Array(undefined)] is the one-element
    array [[undefined]]. *)
Definition newPadPerCol (numCols : option nat) : list nat :=
  match numCols with
  | Some k => replicate k 0
  | None => [0]
  end.

(** The number of [row]s with [row < n / numCols], for [numCols > 0]. *)
Definition rowCount (n numCols : nat) : nat := (n + numCols - 1) / numCols.

(** No value is returned when [valToString] throws on an [undefined]
    entry, nor when [numCols] is 0 and [n] is not ([n / numCols] is
    [Infinity] and the row loop does not end). When [strides] is empty,
    [n / numCols] is [NaN] and the row loop is not entered. *)
Definition computeMaxSizePerColumn (vals : list number) (shape : list nat)
    (dtype : string) (strides : list nat) : option (list nat) :=
  let n := Util.sizeFromShape shape in
  let numCols := last strides in
  let padPerCol := newPadPerCol numCols in
  let rank := length shape in
  let valuesOrTuples :=
    if isComplex dtype then createComplexTuples vals else Scalar <$> vals in
  if 1 <? rank then
    match numCols with
    | None => Some padPerCol
    | Some 0 => if n =? 0 then Some padPerCol else None
    | Some numCols =>
        forLoop (λ row padPerCol,
          let offset := row * numCols in
          forLoop (λ j padPerCol,
            s ← valToString (valuesOrTuples !! (offset + j)) (Some 0);
            Some (<[j := (padPerCol !!! j) `max` String.length s]> padPerCol))
            numCols 0 padPerCol)
          (rowCount n numCols) 0 padPerCol
    end
  else Some padPerCol.

(** [xs.map((x, i) => valToString(x, padPerCol[first + i]))]. *)
Definition cells (padPerCol : list nat) (first : nat) (xs : list element)
    : option (list string) :=
  mapM id (imap (λ i x, valToString (Some x) (padPerCol !! (first + i))) xs).

(** [vals.subarray(start, end)] with [start = i * stride] and
    [end = start + stride]; [stride] is [NaN] when [strides[0]] is
    [undefined], and both bounds are 0 then. *)
Definition slice (vals : list number) (stride : option nat) (i : nat) : list number :=
  match stride with
  | Some stride => subarray vals (i * stride) (i * stride + stride)
  | None => []
  end.

(** Lines 157-168: the brackets and separators put around the lines of the
    sub-tensors. [lines[0]] is [undefined] when there is no line, and the
    assignment to it extends the array. *)
Definition wrapLines (rank : nat) (isLast : bool) (lines : list string) : list string :=
  let sep := if rank =? 2 then "," else "" in
  let lines :=
    match lines !! 0 with
    | Some l => <[0 := "[" +:+ l +:+ sep]> lines
    | None => ["[" +:+ "undefined" +:+ sep]
    end in
  let lines :=
    imap (λ i l, if (1 <=? i) && (i <? length lines - 1)
                 then " " +:+ l +:+ sep else l) lines in
  let newLineSep := "," +:+ LF +:+ repeatString LF (rank - 2) in
  alter (λ l, " " +:+ l +:+ "]" +:+ (if isLast then "" else newLineSep))
    (length lines - 1) lines.

(** Lines 131-156: the lines of the sub-tensors along the outermost
    dimension, all of them or the first and last three around a ["..."]
    line. [render i isLast] is the recursive call on the [i]-th
    sub-tensor. *)
Definition collectLines (render : nat → bool → option (list string)) (size : nat)
    : option (list string) :=
  let push (i : nat) (isLast : bool) (lines : list string) :=
    sub ← render i isLast; Some (lines ++ sub) in
  if FORMAT_LIMIT_NUM_VALS <? size then
    lines ← forLoop (λ i, push i false) FORMAT_NUM_FIRST_LAST_VALS 0 [];
    forLoop (λ i, push i (i =? size - 1)) FORMAT_NUM_FIRST_LAST_VALS
      (size - FORMAT_NUM_FIRST_LAST_VALS) (lines ++ ["..."])
  else
    forLoop (λ i, push i (i =? size - 1)) size 0 [].

Fixpoint subTensorToString (vals : list number) (shape : list nat)
    (dtype : string) (strides padPerCol : list nat) (isLast : bool)
    : option (list string) :=
  let storagePerElement := if isComplex dtype then 2 else 1 in
  match shape with
  | [] =>
      if isComplex dtype then
        s ← valToString (createComplexTuples vals !! 0) (Some 0); Some [s]
      else
        v ← vals !! 0; Some [toString v]
  | [size] =>
      if FORMAT_LIMIT_NUM_VALS <? size then
        let firstValsSize := FORMAT_NUM_FIRST_LAST_VALS * storagePerElement in
        let firstVals := subarray vals 0 firstValsSize in
        let lastVals :=
          subarray vals (size - FORMAT_NUM_FIRST_LAST_VALS * storagePerElement) size in
        let firstVals :=
          if isComplex dtype then createComplexTuples firstVals
          else Scalar <$> firstVals in
        let lastVals :=
          if isComplex dtype then createComplexTuples lastVals
          else Scalar <$> lastVals in
        first ← cells padPerCol 0 firstVals;
        last ← cells padPerCol (size - FORMAT_NUM_FIRST_LAST_VALS) lastVals;
        Some ["[" +:+ join ", " first +:+ ", ..., " +:+ join ", " last +:+ "]"]
      else
        let displayVals :=
          if isComplex dtype then createComplexTuples vals else Scalar <$> vals in
        shown ← cells padPerCol 0 displayVals;
        Some ["[" +:+ join ", " shown +:+ "]"]
  | size :: ((_ :: _) as subshape) =>
      let rank := length shape in
      let substrides := drop 1 strides in
      let stride := (λ s, s * storagePerElement) <$> strides !! 0 in
      lines ← collectLines (λ i isLast,
                 subTensorToString (slice vals stride i) subshape dtype
                   substrides padPerCol isLast) size;
      Some (wrapLines rank isLast lines)
  end.

(** [`[${shape}]`]: an array in a template literal is its elements joined
    by commas. *)
Definition arrayToString (shape : list nat) : string :=
  join "," (pretty <$> shape).

Definition tensorToString (vals : list number) (shape : list nat)
    (dtype : string) (verbose : bool) : option string :=
  let strides := computeStrides shape in
  padPerCol ← computeMaxSizePerColumn vals shape dtype strides;
  let rank := length shape in
  valsLines ← subTensorToString vals shape dtype strides padPerCol true;
  let lines := ["Tensor"] in
  let lines :=
    if verbose then
      lines ++ ["  dtype: " +:+ dtype;
                "  rank: " +:+ pretty rank;
                "  shape: [" +:+ arrayToString shape +:+ "]";
                "  values:"]
    else lines in
  let lines := lines ++ [join LF ((λ l, "    " +:+ l) <$> valsLines)] in
  Some (join LF lines).

(** The text assembled by [tensorToString] from the lines of the value
    block. *)
Definition layout (shape : list nat) (dtype : string) (verbose : bool)
    (valsLines : list string) : string :=
  "Tensor" +:+ LF +:+
  (if verbose then
     "  dtype: " +:+ dtype +:+ LF +:+
     "  rank: " +:+ pretty (length shape) +:+ LF +:+
     "  shape: [" +:+ arrayToString shape +:+ "]" +:+ LF +:+
     "  values:" +:+ LF
   else "") +:+
  join LF ((λ l, "    " +:+ l) <$> valsLines).

End TensorFormat.

(** ** Numbers given by a decimal expansion *)

Module Decimal.

(** [Dec u p] stands for the double nearest to [u * 10^(-p)], and [NaN] is
    what [parseFloat] returns on a string that does not start with a number.
    The conversions below work on the decimal expansion. They are those of
    the JavaScript runtime as long as the expansions involved have at most 15
    significant digits (such an expansion is the shortest one that reads
    back as its double, which is what the runtime prints) and the double
    rounds at the requested place as its expansion does (it does when it is
    [u * 10^(-p)] exactly, as for the integers and the dyadic fractions used
    below). There are no infinities and no negative zero ([-0] is printed as
    ["0"]). *)
Inductive number :=
  | Dec (units : Z) (places : nat)
  | NaN.

Definition int (z : Z) : number := Dec z 0.

Fixpoint stripTrailingZeros (s : string) : string :=
  match s with
  | "" => ""
  | String c rest =>
      match stripTrailingZeros rest with
      | "" => if isZero c then "" else String c ""
      | rest' => String c rest'
      end
  end.

(** Number::toString of a positive number whose decimal digits, without
    trailing zeros, are [s] (of length [k]) and whose value is
    [0.s * 10^n]. *)
Definition digitsToString (s : string) (n : Z) : string :=
  let k := Z.of_nat (String.length s) in
  if ((k <=? n) && (n <=? 21))%Z then
    s +:+ repeatString "0" (Z.to_nat (n - k))
  else if ((0 <? n) && (n <=? 21))%Z then
    takeString (Z.to_nat n) s +:+ "." +:+ dropString (Z.to_nat n) s
  else if ((-6 <? n) && (n <=? 0))%Z then
    "0." +:+ repeatString "0" (Z.to_nat (- n)) +:+ s
  else
    let e := (n - 1)%Z in
    let exponent := (if (e <? 0)%Z then "-" else "+") +:+ pretty (Z.abs e) in
    if (k =? 1)%Z then s +:+ "e" +:+ exponent
    else takeString 1 s +:+ "." +:+ dropString 1 s +:+ "e" +:+ exponent.

Definition toString (x : number) : string :=
  match x with
  | NaN => "NaN"
  | Dec u p =>
      if (u =? 0)%Z then "0"
      else
        let digits := pretty (Z.abs u) in
        let n := (Z.of_nat (String.length digits) - Z.of_nat p)%Z in
        (if (u <? 0)%Z then "-" else "") +:+
        digitsToString (stripTrailingZeros digits) n
  end.

(** Number.prototype.toFixed: the integer [n] for which [n / 10^f - x] is
    closest to zero (the larger one of two), written with [f] digits after
    the point; a number of magnitude [10^21] or more is converted as
    [toString] does. *)
Definition toFixed (x : number) (f : nat) : string :=
  match x with
  | NaN => "NaN"
  | Dec u p =>
      let a := Z.abs u in
      let scale := (10 ^ Z.of_nat p)%Z in
      if (10 ^ 21 * scale <=? a)%Z then toString x
      else
        let n := ((2 * a * 10 ^ Z.of_nat f + scale) / (2 * scale))%Z in
        let m := pretty n in
        let m :=
          if f =? 0 then m
          else
            let m := repeatString "0" (f + 1 - String.length m) +:+ m in
            let k := String.length m in
            takeString (k - f) m +:+ "." +:+ dropString (k - f) m in
        (if (u <? 0)%Z then "-" else "") +:+ m
  end.

(** The longest prefix of decimal digits, and what follows it. *)
Fixpoint spanDigits (s : string) : string * string :=
  match s with
  | "" => ("", "")
  | String c rest =>
      if isDigit c then
        let '(ds, rest') := spanDigits rest in (String c ds, rest')
      else ("", s)
  end.

Fixpoint digitsValue (acc : Z) (ds : string) : Z :=
  match ds with
  | "" => acc
  | String c rest =>
      digitsValue (10 * acc + Z.of_nat (nat_of_ascii c - 48))%Z rest
  end.

Definition signOf (s : string) : bool * string :=
  match s with
  | String "-" rest => (true, rest)
  | String "+" rest => (false, rest)
  | _ => (false, s)
  end.

(** The exponent part ([e], an optional sign, digits), 0 when there is
    none. *)
Definition exponentOf (s : string) : Z :=
  match s with
  | String c rest =>
      if Ascii.eqb c "e" || Ascii.eqb c "E" then
        let '(neg, rest) := signOf rest in
        let '(ds, _) := spanDigits rest in
        let e := digitsValue 0 ds in
        if neg then (- e)%Z else e
      else 0%Z
  | "" => 0%Z
  end.

(** parseFloat on a string without leading white space: the longest prefix
    that is a decimal literal (sign, digits, fraction, exponent). *)
Definition parseFloat (s : string) : number :=
  let '(neg, s) := signOf s in
  let '(intDigits, s) := spanDigits s in
  let '(fracDigits, s) :=
    match s with
    | String "." rest => spanDigits rest
    | _ => ("", s)
    end in
  if String.eqb (intDigits +:+ fracDigits) "" then NaN
  else
    let u := digitsValue 0 (intDigits +:+ fracDigits) in
    let u := if neg then (- u)%Z else u in
    let p := String.length fracDigits in
    let e := exponentOf s in
    if (0 <=? e)%Z then Dec (u * 10 ^ e) p
    else Dec u (p + Z.to_nat (- e)).

#[global] Instance jsNumber : JsNumber number :=
  Build_JsNumber number toFixed parseFloat toString.

End Decimal.

Abbreviation int := Decimal.int.
Abbreviation Dec := Decimal.Dec.

(** ** Vocabulary of the properties *)

(** The digits of the mantissa of a numeral: its digits up to an exponent
    mark. *)
Fixpoint mantissaDigits (s : string) : list ascii :=
  match s with
  | "" => []
  | String c rest =>
      if Ascii.eqb c "e" || Ascii.eqb c "E" then []
      else if isDigit c then c :: mantissaDigits rest
      else mantissaDigits rest
  end.

Fixpoint dropLeadingZeros (ds : list ascii) : list ascii :=
  match ds with
  | c :: rest => if isZero c then dropLeadingZeros rest else ds
  | [] => []
  end.

(** The number of significant digits a numeral displays: the digits of its
    mantissa from the first one that is not 0. *)
Definition significantDigits (s : string) : nat :=
  length (dropLeadingZeros (mantissaDigits s)).

(** The separator after a sub-tensor of rank [rank] that is not the last
    sibling, in the words "a comma plus one newline per nesting level beyond
    the second". *)
Definition claimedSeparator (rank : nat) : string :=
  "," +:+ repeatString LF (rank - 2).

(** The output in the words "header line; if verbose, additional lines for
    dtype, rank, and shape (each prefixed two spaces); then the value block
    with every line indented by four spaces. Lines joined by newline." *)
Definition claimedOutput (shape : list nat) (dtype : string) (verbose : bool)
    (valsLines : list string) : string :=
  join LF (["Tensor"] ++
           (if verbose then
              ["  dtype: " +:+ dtype;
               "  rank: " +:+ pretty (length shape);
               "  shape: [" +:+ join "," (pretty <$> shape) +:+ "]"]
            else []) ++
           ((λ l, "    " +:+ l) <$> valsLines)).


(** * Properties *)

(** ** Strings *)

Lemma append_empty_r (s : string) : s +:+ "" = s.
Proof. induction s as [|c s IH]; simpl; [done | by rewrite IH]. Qed.

Lemma append_assoc (s1 s2 s3 : string) : (s1 +:+ s2) +:+ s3 = s1 +:+ (s2 +:+ s3).
Proof. induction s1 as [|c s1 IH]; simpl; [done | by rewrite IH]. Qed.

Lemma length_append (s1 s2 : string) :
  String.length (s1 +:+ s2) = String.length s1 + String.length s2.
Proof. induction s1 as [|c s1 IH]; simpl; [done | by rewrite IH]. Qed.

Lemma length_repeatString (c : ascii) (n : nat) :
  String.length (repeatString (String c "") n) = n.
Proof. induction n as [|n IH]; simpl; [done | by rewrite IH]. Qed.

(** ** Padding *)

Lemma rightPad_zero (a : string) : Util.rightPad a (Some 0) = a.
Proof. simpl. apply append_empty_r. Qed.

Lemma length_rightPad (a : string) (n : nat) :
  String.length (Util.rightPad a (Some n)) = String.length a `max` n.
Proof. simpl. rewrite length_append, length_repeatString. lia. Qed.

Section Generic.

Context {number : Type} `{JsNumber number}.

Lemma valToString_zero (val : option (@element number)) :
  valToString val (Some 0) = valToString val None.
Proof.
  destruct val as [[val|re [im|]]|]; simpl; try done; by rewrite append_empty_r.
Qed.

(** A width vector of zeros pads like no width vector at all. *)
Lemma cells_zeros (padPerCol : list nat) (first : nat) (xs : list (@element number)) :
  Forall (eq 0) padPerCol → cells padPerCol first xs = cells [] first xs.
Proof.
  intros Hz. unfold cells. f_equal. apply imap_ext. intros i x _.
  destruct (padPerCol !! (first + i)) as [w|] eqn:Hw; [|done].
  rewrite Forall_lookup in Hz. rewrite <- (Hz _ _ Hw).
  apply valToString_zero.
Qed.

Lemma newPadPerCol_zeros (numCols : option nat) : Forall (eq 0) (newPadPerCol numCols).
Proof.
  destruct numCols as [k|]; simpl; [|by repeat constructor].
  apply Forall_replicate. done.
Qed.

(** No column is measured for a scalar or a vector. *)
Lemma computeMaxSizePerColumn_low_rank
    (vals : list number) (shape : list nat) (dtype : string) (strides : list nat) :
  length shape ≤ 1 →
  computeMaxSizePerColumn vals shape dtype strides = Some (newPadPerCol (last strides)).
Proof.
  intros Hrank. unfold computeMaxSizePerColumn.
  destruct (1 <? length shape)%nat eqn:Hlt; [|done].
  apply Nat.ltb_lt in Hlt. lia.
Qed.

(** Rendering a vector reads neither the strides nor [isLast], and zero
    widths leave it unchanged. *)
Lemma subTensorToString_vector (vals : list number) (size : nat) (dtype : string)
    (strides padPerCol : list nat) (isLast : bool) :
  Forall (eq 0) padPerCol →
  subTensorToString vals [size] dtype strides padPerCol isLast =
  subTensorToString vals [size] dtype [] [] true.
Proof.
  intros Hz. simpl. by rewrite !(cells_zeros padPerCol).
Qed.

Lemma subTensorToString_scalar (vals : list number) (dtype : string)
    (strides padPerCol : list nat) (isLast : bool) :
  subTensorToString vals [] dtype strides padPerCol isLast =
  subTensorToString vals [] dtype [] [] true.
Proof. done. Qed.

Lemma tensorToString_layout (computeStrides : list nat → list nat)
    (vals : list number) (shape : list nat) (dtype : string) (verbose : bool) :
  tensorToString computeStrides vals shape dtype verbose =
  (padPerCol ← computeMaxSizePerColumn vals shape dtype (computeStrides shape);
   valsLines ← subTensorToString vals shape dtype (computeStrides shape) padPerCol true;
   Some (layout shape dtype verbose valsLines)).
Proof.
  unfold tensorToString, layout.
  destruct (computeMaxSizePerColumn _ _ _ _) as [padPerCol|]; simpl; [|done].
  destruct (subTensorToString _ _ _ _ _ _) as [valsLines|]; simpl; [|done].
  destruct verbose; simpl; repeat (rewrite append_assoc; simpl); done.
Qed.

(** For a scalar or a vector the result does not depend on the strides. *)
Lemma tensorToString_low_rank (computeStrides : list nat → list nat)
    (vals : list number) (shape : list nat) (dtype : string) (verbose : bool) :
  length shape ≤ 1 →
  tensorToString computeStrides vals shape dtype verbose =
  (valsLines ← subTensorToString vals shape dtype [] [] true;
   Some (layout shape dtype verbose valsLines)).
Proof.
  intros Hrank. rewrite tensorToString_layout.
  rewrite computeMaxSizePerColumn_low_rank by done. simpl.
  destruct shape as [|size [|]]; simpl in Hrank; [| |lia].
  - by rewrite subTensorToString_scalar.
  - by rewrite (subTensorToString_vector _ _ _ _ _ _ (newPadPerCol_zeros _)).
Qed.

(** *** The loops *)

Lemma forLoop_ext {St} (f g : nat → St → option St) (count i : nat) (s : St) :
  (∀ j t, f j t = g j t) → forLoop f count i s = forLoop g count i s.
Proof.
  intros Hfg. revert i s.
  induction count as [|count IH]; intros i s; simpl; [done|].
  rewrite Hfg. destruct (g i s); simpl; auto.
Qed.

Lemma collectLines_ext (f g : nat → bool → option (list string)) (size : nat) :
  (∀ i isLast, f i isLast = g i isLast) → collectLines f size = collectLines g size.
Proof.
  intros Hfg. unfold collectLines.
  destruct (FORMAT_LIMIT_NUM_VALS <? size).
  - apply option_bind_ext.
    + intros lines. apply forLoop_ext. intros; by rewrite Hfg.
    + apply forLoop_ext. intros; by rewrite Hfg.
  - apply forLoop_ext. intros; by rewrite Hfg.
Qed.

(** *** The lines of a nested tensor *)

Lemma subTensorToString_nested (vals : list number) (size d : nat) (rest : list nat)
    (dtype : string) (strides padPerCol : list nat) (isLast : bool) :
  subTensorToString vals (size :: d :: rest) dtype strides padPerCol isLast =
  (lines ← collectLines (λ i isLast,
             subTensorToString
               (slice vals ((λ s, s * (if isComplex dtype then 2 else 1)) <$> strides !! 0) i)
               (d :: rest) dtype (drop 1 strides) padPerCol isLast) size;
   Some (wrapLines (length (size :: d :: rest)) isLast lines)).
Proof. done. Qed.

(** *** The element type is only tested for being complex *)

Lemma subTensorToString_dtype (dtype dtype' : string) (shape : list nat) :
  isComplex dtype = isComplex dtype' →
  ∀ vals strides padPerCol isLast,
    subTensorToString vals shape dtype strides padPerCol isLast =
    subTensorToString vals shape dtype' strides padPerCol isLast.
Proof.
  intros Hc. induction shape as [|size subshape IH]; intros vals strides padPerCol isLast.
  - simpl. by rewrite Hc.
  - destruct subshape as [|d rest].
    + simpl. by rewrite Hc.
    + rewrite !subTensorToString_nested, Hc.
      erewrite collectLines_ext; [done|]. intros i isLast'. apply IH.
Qed.

Lemma computeMaxSizePerColumn_dtype (dtype dtype' : string)
    (vals : list number) (shape strides : list nat) :
  isComplex dtype = isComplex dtype' →
  computeMaxSizePerColumn vals shape dtype strides =
  computeMaxSizePerColumn vals shape dtype' strides.
Proof. intros Hc. unfold computeMaxSizePerColumn. by rewrite Hc. Qed.

Lemma tensorToString_dtype (computeStrides : list nat → list nat)
    (dtype dtype' : string) (vals : list number) (shape : list nat) :
  isComplex dtype = isComplex dtype' →
  tensorToString computeStrides vals shape dtype false =
  tensorToString computeStrides vals shape dtype' false.
Proof.
  intros Hc. rewrite !tensorToString_layout.
  rewrite (computeMaxSizePerColumn_dtype dtype dtype') by done.
  destruct (computeMaxSizePerColumn _ _ _ _) as [padPerCol|]; simpl; [|done].
  by rewrite (subTensorToString_dtype dtype dtype').
Qed.

Lemma wrapLines_length (rank : nat) (isLast : bool) (lines : list string) :
  length (wrapLines rank isLast lines) = length lines `max` 1.
Proof.
  unfold wrapLines. rewrite length_alter, length_imap.
  destruct lines as [|l lines]; simpl; [done|]. lia.
Qed.

(** The last line is closed by a bracket, and by the separator when other
    sub-tensors follow. *)
Lemma wrapLines_last (rank : nat) (isLast : bool) (lines : list string) :
  ∃ init body,
    wrapLines rank isLast lines =
    init ++ [body +:+ "]" +:+
             (if isLast then "" else "," +:+ LF +:+ repeatString LF (rank - 2))].
Proof.
  unfold wrapLines.
  set (sep := if rank =? 2 then "," else "").
  set (lines1 := match lines !! 0 with
                 | Some l => <[0:="[" +:+ l +:+ sep]> lines
                 | None => ["[" +:+ "undefined" +:+ sep]
                 end).
  set (lines2 := imap _ lines1).
  assert (lines2 ≠ []) as Hne.
  { intros Heq. apply (f_equal length) in Heq. unfold lines2 in Heq.
    rewrite length_imap in Heq. unfold lines1 in Heq.
    destruct lines as [|l lines]; simpl in Heq; done. }
  destruct (exists_last Hne) as (init & l & Heq).
  rewrite Heq, length_app. simpl.
  replace (length init + 1 - 1) with (length init + 0) by lia.
  rewrite alter_app_r. simpl.
  exists init, (" " +:+ l). by rewrite append_assoc.
Qed.

Lemma subTensorToString_nonempty (shape : list nat) (vals : list number)
    (dtype : string) (strides padPerCol : list nat) (isLast : bool) (lines : list string) :
  subTensorToString vals shape dtype strides padPerCol isLast = Some lines →
  lines ≠ [].
Proof.
  destruct shape as [|size [|d rest]].
  - simpl. destruct (isComplex dtype); intros Hr; simplify_option_eq; done.
  - simpl. destruct (FORMAT_LIMIT_NUM_VALS <? size);
      intros Hr; simplify_option_eq; done.
  - rewrite subTensorToString_nested. intros Hr. simplify_option_eq.
    intros Heq. apply (f_equal length) in Heq.
    rewrite wrapLines_length in Heq. simpl in Heq. lia.
Qed.

(** Joining a block that was itself joined is joining all the lines. *)
Lemma join_flatten (sep : string) (xs ys : list string) :
  ys ≠ [] → join sep (xs ++ [join sep ys]) = join sep (xs ++ ys).
Proof.
  intros Hne. unfold join. induction xs as [|x xs IH].
  - simpl. done.
  - destruct xs as [|x' xs].
    + simpl. destruct ys as [|y ys]; [done|]. done.
    + change (x :: x' :: xs) with ([x] ++ (x' :: xs)).
      rewrite <- !(assoc_L (++)). simpl in *. by rewrite IH.
Qed.

(** *** Loop invariants *)

Lemma forLoop_invariant {St} (P : nat → St → Prop) (body : nat → St → option St)
    (count i : nat) (s : St) :
  P i s →
  (∀ j t, i ≤ j < i + count → P j t → ∃ t', body j t = Some t' ∧ P (S j) t') →
  ∃ s', forLoop body count i s = Some s' ∧ P (i + count) s'.
Proof.
  revert i s. induction count as [|count IH]; intros i s Hs Hbody; simpl.
  - exists s. by rewrite Nat.add_0_r.
  - destruct (Hbody i s) as (t' & -> & Ht'); [lia | done |]. simpl.
    destruct (IH (S i) t') as (s' & -> & Hs'); [done | |].
    + intros j t Hj. apply Hbody. lia.
    + exists s'. split; [done|]. by replace (i + S count) with (S i + count) by lia.
Qed.

(** *** Cells of real values *)

Lemma cells_scalars (padPerCol : list nat) (first : nat) (xs : list number) :
  cells padPerCol first (Scalar <$> xs) =
  Some (imap (λ i x, Util.rightPad (numToString x) (padPerCol !! (first + i))) xs).
Proof.
  unfold cells. revert first. induction xs as [|x xs IH]; intros first; [done|].
  rewrite fmap_cons, !imap_cons. simpl.
  rewrite (imap_ext _ (λ i x, valToString (Some x) (padPerCol !! (S first + i)))).
  2:{ intros i y _. simpl. by replace (first + S i) with (S (first + i)) by lia. }
  rewrite IH. simpl. f_equal. f_equal.
  apply imap_ext. intros i y _. simpl. by replace (first + S i) with (S (first + i)) by lia.
Qed.

(** The line of a vector of a dtype other than complex64: all the values of
    the buffer, or the first three and those of the slots
    [size - 3 .. size - 1] around an ellipsis. *)
Lemma subTensorToString_real_vector (vals : list number) (size : nat) (dtype : string)
    (strides padPerCol : list nat) (isLast : bool) :
  isComplex dtype = false →
  subTensorToString vals [size] dtype strides padPerCol isLast =
  Some ["[" +:+
        (if FORMAT_LIMIT_NUM_VALS <? size then
           join ", " (imap (λ i x, Util.rightPad (numToString x) (padPerCol !! i))
                        (take 3 vals)) +:+
           ", ..., " +:+
           join ", " (imap (λ i x, Util.rightPad (numToString x)
                                     (padPerCol !! (size - 3 + i)))
                        (subarray vals (size - 3) size))
         else
           join ", " (imap (λ i x, Util.rightPad (numToString x) (padPerCol !! i)) vals))
        +:+ "]"].
Proof.
  intros Hc. simpl. rewrite Hc.
  destruct (FORMAT_LIMIT_NUM_VALS <? size).
  - rewrite !cells_scalars. simpl. unfold subarray. simpl.
    rewrite append_assoc. simpl. done.
  - rewrite cells_scalars. done.
Qed.

(** *** Column widths of a real matrix *)

(** For a matrix of [r] rows and [c] columns of a dtype other than
    complex64, whose buffer has [r * c] values, and strides that end with the
    number of columns: the width calculator returns [c] widths, and every
    value of column [j], padded to the width of column [j], is rendered with
    exactly that many characters, whatever its row. *)
Lemma real_matrix_columns_aligned (vals : list number) (r c : nat) (dtype : string)
    (strides : list nat) :
  isComplex dtype = false →
  length vals = r * c →
  last strides = Some c →
  ∃ padPerCol,
    computeMaxSizePerColumn vals [r; c] dtype strides = Some padPerCol ∧
    length padPerCol = c ∧
    ∀ i j val, i < r → j < c → vals !! (i * c + j) = Some val →
      String.length (Util.rightPad (numToString val) (padPerCol !! j)) = padPerCol !!! j.
Proof.
  intros Hc Hlen Hlast.
  set (width k := from_option (String.length ∘ numToString) 0 (vals !! k)).
  assert (∃ padPerCol,
    computeMaxSizePerColumn vals [r; c] dtype strides = Some padPerCol ∧
    length padPerCol = c ∧
    ∀ i j, i < r → j < c → width (i * c + j) ≤ padPerCol !!! j)
    as (padPerCol & Hpad & Hlength & Hwidth).
  { unfold computeMaxSizePerColumn. rewrite Hlast, Hc. simpl.
    destruct c as [|c'].
    { exists []. split; [|split; [done | intros; lia]].
      replace (r * (0 * 1)) with 0 by lia. done. }
    set (c := S c') in *.
    replace (rowCount (r * (c * 1)) c) with r.
    2:{ unfold rowCount. replace (r * (c * 1) + c - 1) with (r * c + c') by lia.
        rewrite Nat.div_add_l by done. rewrite (Nat.div_small c' c) by lia. lia. }
    destruct (forLoop_invariant
      (λ row pad, length pad = c ∧
                  ∀ i j, i < row → j < c → width (i * c + j) ≤ pad !!! j)
      (λ row padPerCol,
         forLoop (λ j padPerCol,
           s ← valToString ((Scalar <$> vals) !! (row * c + j)) (Some 0);
           Some (<[j := (padPerCol !!! j) `max` String.length s]> padPerCol))
           c 0 padPerCol)
      r 0 (replicate c 0)) as (padPerCol & Hloop & Hlength & Hwidth).
    - split; [by rewrite length_replicate | intros; lia].
    - intros row pad Hrow (Hlength & Hwidth).
      destruct (forLoop_invariant
        (λ j pad', length pad' = c ∧
                   (∀ k, pad !!! k ≤ pad' !!! k) ∧
                   ∀ k, k < j → width (row * c + k) ≤ pad' !!! k)
        (λ j padPerCol,
           s ← valToString ((Scalar <$> vals) !! (row * c + j)) (Some 0);
           Some (<[j := (padPerCol !!! j) `max` String.length s]> padPerCol))
        c 0 pad) as (pad' & Hinner & Hlength' & Hmono & Hrow').
      + repeat split; [done | done | intros; lia].
      + intros j t Hj (Hlt & Hmt & Hwt).
        assert (row * c + j < length vals) as Hin by nia.
        destruct (lookup_lt_is_Some_2 _ _ Hin) as [val Hval].
        rewrite list_lookup_fmap, Hval. simpl. eexists. split; [done|].
        rewrite append_empty_r.
        split; [by rewrite length_insert|]. split.
        * intros k. rewrite list_lookup_total_insert. case_decide; [|done].
          destruct_and!; subst. specialize (Hmt k). lia.
        * intros k Hk. rewrite list_lookup_total_insert. case_decide.
          -- destruct_and!; subst. unfold width. rewrite Hval. simpl. lia.
          -- assert (k < j) by lia. by apply Hwt.
      + exists pad'. split; [done|]. split; [done|].
        intros i j Hi Hj. destruct (decide (i = row)) as [->|].
        * by apply Hrow'.
        * etrans; [apply Hwidth; [lia|done] | apply Hmono].
    - exists padPerCol. by rewrite <- Hloop. }
  exists padPerCol. split; [done|]. split; [done|].
  intros i j val Hi Hj Hval.
  rewrite (list_lookup_lookup_total_lt padPerCol j) by lia.
  rewrite length_rightPad. specialize (Hwidth i j Hi Hj).
  unfold width in Hwidth. rewrite Hval in Hwidth. simpl in Hwidth. lia.
Qed.

End Generic.

(** ** Vectors *)

(** The buffer of the complex vector of 22 elements [0 + 1j], [2 + 3j], ...,
    [42 + 43j]. *)
Lemma complex_vector_buffer :
  createComplexTuples (int ∘ Z.of_nat <$> seq 0 44) !! 21 =
  Some (Tuple (int 42) (Some (int 43))).
Proof. reflexivity. Qed.

(** C1. A complex vector of more than 20 elements: the three elements shown
    after the ellipsis are read from the buffer slots [size - 6 .. size - 1],
    which hold the logical elements 8, 9 and 10 of a 22-element vector, and
    not from the slots of its last three logical elements 19, 20 and 21
    (which render as [38 + 39j], [40 + 41j], [42 + 43j]). *)
Theorem complex_vector_truncation :
  (∀ computeStrides,
     tensorToString computeStrides (int ∘ Z.of_nat <$> seq 0 44) [22] "complex64" false =
     Some ("Tensor" +:+ LF +:+
           "    [0 + 1j, 2 + 3j, 4 + 5j, ..., 16 + 17j, 18 + 19j, 20 + 21j]")) ∧
  cells [] 19 (drop 19 (createComplexTuples (int ∘ Z.of_nat <$> seq 0 44))) =
  Some ["38 + 39j"; "40 + 41j"; "42 + 43j"].
Proof.
  split; [|by vm_compute].
  intros computeStrides. rewrite tensorToString_low_rank by (simpl; lia).
  by vm_compute.
Qed.

(** ** Values *)

(** C2. The value renderer keeps 7 digits after the decimal point, not 7
    significant digits: the integer 123456789 is rendered with its 9 digits
    and 12345678.125 with 11. (Trailing zeros are dropped: 1.0 is rendered
    as [1].) *)
Theorem valToString_digits :
  valToString (Some (Scalar (int 123456789))) (Some 0) = Some "123456789" ∧
  significantDigits "123456789" = 9 ∧
  valToString (Some (Scalar (Dec 12345678125 3))) (Some 0) = Some "12345678.125" ∧
  significantDigits "12345678.125" = 11 ∧
  valToString (Some (Scalar (Dec 10 1))) (Some 0) = Some "1".
Proof. repeat split; by vm_compute. Qed.

(** C7. A pair is rendered as the real part, [" + "], the imaginary part and
    ["j"], whatever the sign of the imaginary part; (3, -4) is rendered as
    [3 + -4j], and the complex vector with buffer 1, 2, 3, 4 as
    [[1 + 2j, 3 + 4j]]. *)
Theorem valToString_pair :
  (∀ (number : Type) (J : JsNumber number) (re im : number) (pad : option nat),
     valToString (Some (Tuple re (Some im))) pad =
     Some (Util.rightPad (numToString re +:+ " + " +:+ numToString im +:+ "j") pad)) ∧
  valToString (Some (Tuple (int 3) (Some (int (-4))))) (Some 0) = Some "3 + -4j" ∧
  createComplexTuples (int <$> [1; 2; 3; 4]%Z) =
    [Tuple (int 1) (Some (int 2)); Tuple (int 3) (Some (int 4))] ∧
  subTensorToString (int <$> [1; 2; 3; 4]%Z) [2] "complex64" [] [0] true =
    Some ["[1 + 2j, 3 + 4j]"] ∧
  (∀ computeStrides,
     tensorToString computeStrides (int <$> [1; 2; 3; 4]%Z) [2] "complex64" false =
     Some ("Tensor" +:+ LF +:+ "    [1 + 2j, 3 + 4j]")).
Proof.
  split; [done|]. repeat split; try by vm_compute.
  intros computeStrides. rewrite tensorToString_low_rank by (simpl; lia).
  by vm_compute.
Qed.

(** ** Scalars *)

(** C9. A scalar of a dtype other than complex64 is rendered by the plain
    string conversion of the first buffer value, without the rounding of the
    value renderer: 0.123456789 is displayed with its 9 digits as a scalar,
    and as [0.1234568] as the element of a vector; so is 0.00390625, which
    becomes [0.0039063] in a vector. *)
Theorem scalar_is_not_rounded :
  (∀ (number : Type) (J : JsNumber number) (computeStrides : list nat → list nat)
     (val : number) (vals : list number) (dtype : string) (verbose : bool)
     (strides padPerCol : list nat) (isLast : bool),
     isComplex dtype = false →
     subTensorToString (val :: vals) [] dtype strides padPerCol isLast =
       Some [toString val] ∧
     tensorToString computeStrides (val :: vals) [] dtype verbose =
       Some (layout [] dtype verbose [toString val])) ∧
  (∀ computeStrides,
     tensorToString computeStrides [Dec 123456789 9] [] "float32" false =
       Some ("Tensor" +:+ LF +:+ "    0.123456789") ∧
     tensorToString computeStrides [Dec 123456789 9] [1] "float32" false =
       Some ("Tensor" +:+ LF +:+ "    [0.1234568]") ∧
     tensorToString computeStrides [Dec 390625 8] [] "float32" false =
       Some ("Tensor" +:+ LF +:+ "    0.00390625") ∧
     tensorToString computeStrides [Dec 390625 8] [1] "float32" false =
       Some ("Tensor" +:+ LF +:+ "    [0.0039063]")).
Proof.
  split.
  - intros number J computeStrides val vals dtype verbose strides padPerCol isLast Hc.
    split.
    + simpl. by rewrite Hc.
    + rewrite tensorToString_low_rank by (simpl; lia). simpl. by rewrite Hc.
  - intros computeStrides.
    repeat split; rewrite tensorToString_low_rank by (simpl; lia); by vm_compute.
Qed.

Lemma scalar_is_not_rounded_witness :
  isComplex "int32" = false ∧
  subTensorToString [int 5] [] "int32" [] [0] true = Some ["5"].
Proof.
  split; [reflexivity|].
  exact (proj1 (proj1 scalar_is_not_rounded _ _ Util.computeStrides (int 5) []
                  "int32" false [] [0] true eq_refl)).
Defined.

(** ** Matrices *)

(** C8. The 2 x 2 matrix with buffer 1, 2, 3, 4 of a dtype other than
    complex64, not verbose. The strides of the shape [2, 2] are [2, 1] or,
    without the stride of the innermost dimension, [2]. *)
Theorem matrix_2x2 (computeStrides : list nat → list nat) (dtype : string) :
  isComplex dtype = false →
  computeStrides [2; 2] = [2; 1] ∨ computeStrides [2; 2] = [2] →
  tensorToString computeStrides (int <$> [1; 2; 3; 4]%Z) [2; 2] dtype false =
  Some (join LF ["Tensor";
                 "    [[1, 2],";
                 "     [3, 4]]"]).
Proof.
  intros Hc Hstrides.
  rewrite (tensorToString_dtype _ dtype "float32") by done.
  rewrite tensorToString_layout.
  destruct Hstrides as [-> | ->]; by vm_compute.
Qed.

Lemma matrix_2x2_witness :
  isComplex "float32" = false ∧
  (Util.computeStrides [2; 2] = [2; 1] ∨ Util.computeStrides [2; 2] = [2]) ∧
  tensorToString Util.computeStrides (int <$> [1; 2; 3; 4]%Z) [2; 2] "float32" false =
  Some (join LF ["Tensor"; "    [[1, 2],"; "     [3, 4]]"]).
Proof.
  split; [reflexivity|]. split; [left; reflexivity|].
  apply (matrix_2x2 Util.computeStrides "float32"); [reflexivity | left; reflexivity].
Defined.

(** ** Empty dimensions *)

(** C3. An outermost dimension of size 0. A vector without elements is
    rendered as [[]]. At rank 2 and above no sub-tensor contributes a line,
    the first line is read as [undefined] before the brackets are put around
    it, and the only line is [ [undefined,]] at rank 2 and [ [undefined]]
    above; so the empty matrix of shape [0, 3] is displayed as
    [ [undefined,]]. *)
Theorem empty_outer_dimension :
  (∀ (number : Type) (J : JsNumber number) (dtype : string)
     (strides padPerCol : list nat) (isLast : bool),
     subTensorToString (@nil number) [0] dtype strides padPerCol isLast = Some ["[]"]) ∧
  (∀ (number : Type) (J : JsNumber number) (vals : list number) (d : nat)
     (rest : list nat) (dtype : string) (strides padPerCol : list nat),
     subTensorToString vals (0 :: d :: rest) dtype strides padPerCol true =
     Some [" [undefined" +:+ (if rest is [] then "," else "") +:+ "]"]) ∧
  (∀ computeStrides,
     tensorToString computeStrides (@nil Decimal.number) [0; 3] "float32" false =
     Some ("Tensor" +:+ LF +:+ "     [undefined,]")).
Proof.
  split; [|split].
  - intros number J dtype strides padPerCol isLast. simpl.
    by destruct (isComplex dtype).
  - intros number J vals d rest dtype strides padPerCol.
    rewrite subTensorToString_nested. by destruct rest.
  - intros computeStrides. rewrite tensorToString_layout.
    assert (∃ padPerCol,
      computeMaxSizePerColumn (@nil Decimal.number) [0; 3] "float32"
        (computeStrides [0; 3]) = Some padPerCol) as [padPerCol ->].
    { unfold computeMaxSizePerColumn. simpl.
      destruct (last (computeStrides [0; 3])) as [[|k]|]; eauto.
      unfold rowCount. replace (0 + S k - 1) with k by lia.
      rewrite Nat.div_small by lia. eauto. }
    by vm_compute.
Qed.

(** ** The assembled text *)

(** C4, as the claim has it: at a scalar 5 rendered verbosely, the output has
    a line [  values:] that the claimed lines do not have. *)
Lemma values_line_counterexample :
  tensorToString Util.computeStrides [int 5] [] "float32" true =
    Some (join LF ["Tensor"; "  dtype: float32"; "  rank: 0"; "  shape: []";
                   "  values:"; "    5"]) ∧
  tensorToString Util.computeStrides [int 5] [] "float32" true ≠
    Some (claimedOutput [] "float32" true ["5"]).
Proof. split; [by vm_compute|]. vm_compute. intros [=]. Qed.

(** C4, amended. The output is the lines [Tensor]; when verbose, the lines
    of dtype, rank and shape and the line [  values:], each after two
    spaces; and each line returned by the structure renderer after four
    spaces; all joined by single line feeds, and nothing else. No text is
    returned when the width calculator or the structure renderer returns
    none. *)
Theorem tensorToString_lines {number : Type} `{JsNumber number}
    (computeStrides : list nat → list nat)
    (vals : list number) (shape : list nat) (dtype : string) (verbose : bool) :
  tensorToString computeStrides vals shape dtype verbose =
  (padPerCol ← computeMaxSizePerColumn vals shape dtype (computeStrides shape);
   valsLines ← subTensorToString vals shape dtype (computeStrides shape) padPerCol true;
   Some (join LF (["Tensor"] ++
                  (if verbose then
                     ["  dtype: " +:+ dtype;
                      "  rank: " +:+ pretty (length shape);
                      "  shape: [" +:+ join "," (pretty <$> shape) +:+ "]";
                      "  values:"]
                   else []) ++
                  ((λ l, "    " +:+ l) <$> valsLines)))).
Proof.
  unfold tensorToString.
  destruct (computeMaxSizePerColumn _ _ _ _) as [padPerCol|]; simpl; [|done].
  destruct (subTensorToString _ _ _ _ _ _) as [valsLines|] eqn:Hlines; simpl; [|done].
  apply subTensorToString_nonempty in Hlines.
  assert ((λ l, "    " +:+ l) <$> valsLines ≠ []) as Hne.
  { by destruct valsLines. }
  f_equal. destruct verbose.
  - apply (join_flatten LF ["Tensor"; _; _; _; _] _ Hne).
  - apply (join_flatten LF ["Tensor"] _ Hne).
Qed.

(** C10. The verbose flag only inserts the lines of dtype, rank, shape and
    [  values:] between the header and the value block: both outputs start
    with the line [Tensor] and end with the same block, and neither is
    returned when the other is not. *)
Theorem verbose_inserts_metadata {number : Type} `{JsNumber number}
    (computeStrides : list nat → list nat)
    (vals : list number) (shape : list nat) (dtype : string) :
  match tensorToString computeStrides vals shape dtype false with
  | Some plain =>
      ∃ valsLines,
        let block := join LF ((λ l, "    " +:+ l) <$> valsLines) in
        plain = "Tensor" +:+ LF +:+ block ∧
        tensorToString computeStrides vals shape dtype true =
        Some ("Tensor" +:+ LF +:+
              "  dtype: " +:+ dtype +:+ LF +:+
              "  rank: " +:+ pretty (length shape) +:+ LF +:+
              "  shape: [" +:+ join "," (pretty <$> shape) +:+ "]" +:+ LF +:+
              "  values:" +:+ LF +:+
              block)
  | None => tensorToString computeStrides vals shape dtype true = None
  end.
Proof.
  rewrite !tensorToString_layout.
  destruct (computeMaxSizePerColumn _ _ _ _) as [padPerCol|]; simpl; [|done].
  destruct (subTensorToString _ _ _ _ _ _) as [valsLines|]; simpl; [|done].
  exists valsLines. split; [done|].
  unfold layout, arrayToString. f_equal. simpl.
  repeat (rewrite append_assoc; simpl). done.
Qed.

(** ** Separators *)

(** C6, as the claim has it: a matrix that is not the last sibling ends with
    [],] and a line feed, not with [],] alone. *)
Lemma separator_counterexample :
  subTensorToString [int 1] [1; 1] "float32" [1] [1] false =
    Some [" [[1],]," +:+ LF] ∧
  endsWith ("]" +:+ claimedSeparator 2) (" [[1],]," +:+ LF) = false.
Proof. split; by vm_compute. Qed.

(** C6, amended. The last line of a sub-tensor of rank 2 or more ends with
    []], followed by nothing when it is the last sibling, and otherwise by a
    comma, a line feed, and one more line feed per nesting level beyond the
    second. *)
Theorem last_line_separator {number : Type} `{JsNumber number}
    (vals : list number) (shape : list nat) (dtype : string)
    (strides padPerCol : list nat) (isLast : bool) (lines : list string) :
  2 ≤ length shape →
  subTensorToString vals shape dtype strides padPerCol isLast = Some lines →
  ∃ init body,
    lines = init ++ [body +:+ "]" +:+
                     (if isLast then ""
                      else "," +:+ LF +:+ repeatString LF (length shape - 2))].
Proof.
  intros Hrank Hlines.
  destruct shape as [|size [|d rest]]; simpl in Hrank; [lia..|].
  rewrite subTensorToString_nested in Hlines.
  destruct (collectLines _ _) as [sub|]; simplify_eq/=.
  destruct (wrapLines_last (S (S (length rest))) isLast sub) as (init & body & ->).
  exists init, body. simpl. by rewrite Nat.sub_0_r.
Qed.

Lemma last_line_separator_witness :
  2 ≤ length [2; 1] ∧
  ∃ init body,
    ["[[1],"; " [2]]," +:+ LF] =
    init ++ [body +:+ "]" +:+ "," +:+ LF +:+ repeatString LF (length [2; 1] - 2)].
Proof.
  split; [simpl; lia|].
  apply (last_line_separator (int <$> [1; 2]%Z) [2; 1] "float32" [1] [1; 1] false);
    [simpl; lia | by vm_compute].
Defined.

(** ** Columns *)

(** C5. A complex matrix of 2 rows and 22 columns, all zero but the real part
    of the element at row 0, column 8, which is 100. After the ellipsis each
    row shows its elements of columns 8, 9 and 10 (the slots [22 - 6 .. 21]
    of the row) padded to the widths of columns 19, 20 and 21: the values of
    column 8 are rendered with 8 characters in row 0 and with 6 in row 1.
    This holds for the strides [22] as for the strides [22, 1]. *)
Theorem complex_columns_unaligned :
  let vals := int <$> (replicate 16 0 ++ [100] ++ replicate 71 0)%Z in
  let row0 := slice vals (Some 44) 0 in
  let row1 := slice vals (Some 44) 1 in
  let padPerCol := <[8 := 8]> (replicate 22 6) in
  (computeMaxSizePerColumn vals [2; 22] "complex64" [22] = Some padPerCol ∧
   subTensorToString vals [2; 22] "complex64" [22] padPerCol true =
     Some ["[[0 + 0j, 0 + 0j, 0 + 0j, ..., 100 + 0j, 0 + 0j, 0 + 0j],";
           " [0 + 0j, 0 + 0j, 0 + 0j, ..., 0 + 0j, 0 + 0j, 0 + 0j]]"] ∧
   fmap (M := list) String.length <$> cells padPerCol 19 (createComplexTuples (subarray row0 16 22)) =
     Some [8; 6; 6] ∧
   fmap (M := list) String.length <$> cells padPerCol 19 (createComplexTuples (subarray row1 16 22)) =
     Some [6; 6; 6]) ∧
  (computeMaxSizePerColumn vals [2; 22] "complex64" [22; 1] = Some [8] ∧
   subTensorToString vals [2; 22] "complex64" [22; 1] [8] true =
     Some ["[[0 + 0j  , 0 + 0j, 0 + 0j, ..., 100 + 0j, 0 + 0j, 0 + 0j],";
           " [0 + 0j  , 0 + 0j, 0 + 0j, ..., 0 + 0j, 0 + 0j, 0 + 0j]]"]) ∧
  createComplexTuples row0 !! 8 = Some (Tuple (int 100) (Some (int 0))) ∧
  createComplexTuples row1 !! 8 = Some (Tuple (int 0) (Some (int 0))).
Proof. repeat split; by vm_compute. Qed.

(** * Further properties of the formatter *)

(** ** Complex tuples *)

Section Tuples.

Context {number : Type} `{JsNumber number}.

Lemma createComplexTuples_lookup_le (n : nat) (vals : list number) (i : nat) :
  length vals ≤ n →
  createComplexTuples vals !! i =
  (re ← vals !! (2 * i); Some (Tuple re (vals !! (2 * i + 1)))).
Proof.
  revert vals i. induction n as [|n IH]; intros vals i Hn.
  - destruct vals; [done | simpl in Hn; lia].
  - destruct vals as [|re [|im rest]]; [done | |].
    + destruct i as [|i]; [done|].
      replace (2 * S i) with (S (S (2 * i))) by lia. done.
    + destruct i as [|i]; [done|].
      replace (2 * S i) with (S (S (2 * i))) by lia. simpl.
      apply IH. simpl in Hn. lia.
Qed.

Lemma createComplexTuples_length_le (n : nat) (vals : list number) :
  length vals ≤ n →
  length (createComplexTuples vals) = (length vals + 1) / 2.
Proof.
  revert vals. induction n as [|n IH]; intros vals Hn.
  - destruct vals; [done | simpl in Hn; lia].
  - destruct vals as [|re [|im rest]]; [done | done |].
    cbn [createComplexTuples length] in *. rewrite IH by lia.
    replace (S (S (length rest)) + 1) with (1 * 2 + (length rest + 1)) by lia.
    by rewrite Nat.div_add_l.
Qed.

(** X1. The [i]-th tuple pairs the buffer slots [2 i] and [2 i + 1] (the
    second is undefined when the buffer ends on slot [2 i]), and a buffer of
    [n] values gives [(n + 1) / 2] tuples: an odd buffer is not cut short,
    its last value is paired with [undefined]. *)
Theorem createComplexTuples_pairs (vals : list number) :
  (∀ i, createComplexTuples vals !! i =
        (re ← vals !! (2 * i); Some (Tuple re (vals !! (2 * i + 1))))) ∧
  length (createComplexTuples vals) = (length vals + 1) / 2.
Proof.
  split.
  - intros i. by apply (createComplexTuples_lookup_le (length vals)).
  - by apply (createComplexTuples_length_le (length vals)).
Qed.

(** Whether a value can be rendered does not depend on the width. *)
Lemma valToString_is_Some (val : option (@element number)) (pad pad' : option nat) :
  is_Some (valToString val pad) → is_Some (valToString val pad').
Proof. destruct val as [[val|re [im|]]|]; simpl; eauto. Qed.

Lemma cells_is_Some (padPerCol : list nat) (first : nat) (xs : list (@element number)) :
  is_Some (cells padPerCol first xs) ↔
  Forall (λ x, is_Some (valToString (Some x) None)) xs.
Proof.
  unfold cells. rewrite mapM_is_Some, !Forall_lookup. split.
  - intros Hall i x Hx.
    specialize (Hall i (valToString (Some x) (padPerCol !! (first + i)))).
    rewrite list_lookup_imap, Hx in Hall.
    eapply valToString_is_Some. by apply Hall.
  - intros Hall i s. rewrite list_lookup_imap. intros Hs.
    destruct (xs !! i) as [x|] eqn:Hx; [|done].
    assert (s = valToString (Some x) (padPerCol !! (first + i))) as ->
      by (symmetry; exact (Some_inj _ _ Hs)).
    exact (valToString_is_Some (Some x) None _ (Hall i x Hx)).
Qed.

Lemma createComplexTuples_complete_le (n : nat) (vals : list number) :
  length vals ≤ n →
  Forall (λ x, is_Some (valToString (Some x) None)) (createComplexTuples vals) ↔
  Nat.Even (length vals).
Proof.
  revert vals. induction n as [|n IH]; intros vals Hn.
  - destruct vals; [|simpl in Hn; lia]. split; [|by constructor].
    intros _. by exists 0.
  - destruct vals as [|re [|im rest]].
    + split; [|by constructor]. intros _. by exists 0.
    + simpl. split.
      * intros [[s Hs] _]%Forall_cons. done.
      * intros [m Hm]. lia.
    + simpl in *. rewrite Forall_cons, IH by lia.
      rewrite Nat.Even_succ_succ. split; [by intros [_ ?] | eauto].
Qed.

(** X3. A complex vector of at most 20 elements is rendered exactly when
    its buffer has an even number of values: the last value of an odd
    buffer has no imaginary part, and rendering the pair throws. *)
Theorem complex_vector_needs_even_buffer (vals : list number) (size : nat)
    (dtype : string) (strides padPerCol : list nat) (isLast : bool) :
  isComplex dtype = true →
  size ≤ FORMAT_LIMIT_NUM_VALS →
  is_Some (subTensorToString vals [size] dtype strides padPerCol isLast) ↔
  Nat.Even (length vals).
Proof.
  intros Hc Hsize. simpl. rewrite Hc.
  replace (FORMAT_LIMIT_NUM_VALS <? size) with false
    by (symmetry; apply Nat.ltb_ge; done).
  rewrite <- (createComplexTuples_complete_le (length vals)) by done.
  rewrite <- (cells_is_Some padPerCol 0).
  destruct (cells _ _ _); simpl; split; intros [? ?]; done || eauto.
Qed.

(** X2. A scalar is rendered exactly when the buffer holds its value: one
    number, or two for complex64. On a shorter buffer the renderer, and the
    top-level function with it, throws. *)
Theorem scalar_needs_its_value (computeStrides : list nat → list nat)
    (vals : list number) (dtype : string) (verbose : bool)
    (strides padPerCol : list nat) (isLast : bool) :
  (is_Some (subTensorToString vals [] dtype strides padPerCol isLast) ↔
   (if isComplex dtype then 2 else 1) ≤ length vals) ∧
  (is_Some (tensorToString computeStrides vals [] dtype verbose) ↔
   (if isComplex dtype then 2 else 1) ≤ length vals).
Proof.
  assert (∀ strides padPerCol isLast,
    is_Some (subTensorToString vals [] dtype strides padPerCol isLast) ↔
    (if isComplex dtype then 2 else 1) ≤ length vals) as Hsub.
  { intros strides' padPerCol' isLast'. simpl.
    destruct (isComplex dtype), vals as [|re [|im rest]]; simpl;
      split; intros Hr; try (by destruct Hr); eauto; lia. }
  split; [apply Hsub|].
  rewrite tensorToString_low_rank by (simpl; lia).
  rewrite <- (Hsub [] [] true).
  destruct (subTensorToString _ _ _ _ _ _); simpl; split; intros [? ?]; done || eauto.
Qed.

End Tuples.

Lemma complex_vector_needs_even_buffer_witness :
  isComplex "complex64" = true ∧ 2 ≤ FORMAT_LIMIT_NUM_VALS ∧
  (is_Some (subTensorToString (int <$> [1; 2; 3]%Z) [2] "complex64" [] [0] true) ↔
   Nat.Even (length (int <$> [1; 2; 3]%Z))).
Proof.
  split; [reflexivity|]. split; [unfold FORMAT_LIMIT_NUM_VALS; lia|].
  apply (complex_vector_needs_even_buffer (int <$> [1; 2; 3]%Z) 2 "complex64" [] [0] true);
    [reflexivity | unfold FORMAT_LIMIT_NUM_VALS; lia].
Defined.

(** ** Loops that throw *)

Lemma forLoop_is_Some {St} (body : nat → St → option St) (count i : nat) (s : St) :
  (∀ j t, i ≤ j < i + count → is_Some (body j t)) →
  is_Some (forLoop body count i s).
Proof.
  intros Hbody.
  destruct (forLoop_invariant (λ _ _, True) body count i s) as (s' & -> & _); eauto.
  intros j t Hj _. destruct (Hbody j t Hj) as [t' ->]. eauto.
Qed.

Lemma forLoop_Some_inv {St} (body : nat → St → option St) (count i : nat) (s s' : St) :
  forLoop body count i s = Some s' →
  ∀ j, i ≤ j < i + count → ∃ t t', body j t = Some t'.
Proof.
  revert i s. induction count as [|count IH]; intros i s Hloop j Hj; [lia|].
  simpl in Hloop. destruct (body i s) as [t'|] eqn:Hbody; [|done]. simpl in Hloop.
  destruct (decide (j = i)) as [->|]; [eauto|].
  apply (IH (S i) t' Hloop). lia.
Qed.

Section Throws.

Context {number : Type} `{JsNumber number}.

Lemma collectLines_is_Some (render : nat → bool → option (list string)) (size : nat) :
  (∀ i isLast, is_Some (render i isLast)) → is_Some (collectLines render size).
Proof.
  intros Hrender. unfold collectLines.
  assert (∀ (isLast : nat → bool) count i lines,
    is_Some (forLoop (λ i lines, sub ← render i (isLast i); Some (lines ++ sub))
               count i lines)) as Hloop.
  { intros isLast count i lines. apply forLoop_is_Some. intros j t _.
    destruct (Hrender j (isLast j)) as [sub ->]. eauto. }
  destruct (FORMAT_LIMIT_NUM_VALS <? size); [|apply Hloop].
  destruct (Hloop (λ _, false) FORMAT_NUM_FIRST_LAST_VALS 0 []) as [lines ->].
  apply Hloop.
Qed.

Lemma subTensorToString_real_is_Some (shape : list nat) (vals : list number)
    (dtype : string) (strides padPerCol : list nat) (isLast : bool) :
  isComplex dtype = false →
  1 ≤ length shape →
  is_Some (subTensorToString vals shape dtype strides padPerCol isLast).
Proof.
  intros Hc. revert vals strides isLast.
  induction shape as [|size subshape IH]; intros vals strides isLast Hrank;
    [simpl in Hrank; lia|].
  destruct subshape as [|d rest].
  - rewrite subTensorToString_real_vector by done. eauto.
  - rewrite subTensorToString_nested.
    destruct (collectLines_is_Some
      (λ i isLast, subTensorToString
         (slice vals ((λ s, s * (if isComplex dtype then 2 else 1)) <$> strides !! 0) i)
         (d :: rest) dtype (drop 1 strides) padPerCol isLast) size) as [lines ->].
    + intros i isLast'. apply IH. simpl. lia.
    + simpl. eauto.
Qed.

(** X4. For a dtype other than complex64 the structure renderer never throws
    on a shape of rank 1 or more, whatever the buffer, and it returns at
    least one line: a buffer that is too short only gives shorter rows. *)
Theorem real_tensor_is_rendered (shape : list nat) (vals : list number)
    (dtype : string) (strides padPerCol : list nat) (isLast : bool) :
  isComplex dtype = false →
  1 ≤ length shape →
  ∃ lines,
    subTensorToString vals shape dtype strides padPerCol isLast = Some lines ∧
    1 ≤ length lines.
Proof.
  intros Hc Hrank.
  destruct (subTensorToString_real_is_Some shape vals dtype strides padPerCol isLast
              Hc Hrank) as [lines Hlines].
  exists lines. split; [done|].
  apply subTensorToString_nonempty in Hlines. destruct lines; [done | simpl; lia].
Qed.

End Throws.

Lemma real_tensor_is_rendered_witness :
  isComplex "float32" = false ∧ 1 ≤ length [2; 2] ∧
  ∃ lines,
    subTensorToString (int <$> [1; 2; 3]%Z) [2; 2] "float32" [2] [1; 1] true =
      Some lines ∧
    1 ≤ length lines.
Proof.
  split; [reflexivity|]. split; [simpl; lia|].
  apply (real_tensor_is_rendered [2; 2] (int <$> [1; 2; 3]%Z) "float32" [2] [1; 1] true);
    [reflexivity | simpl; lia].
Defined.

(** ** The widths of the columns *)

Section Widths.

Context {number : Type} `{JsNumber number}.

(** The width calculator on a matrix whose strides end with its number of
    columns: the row loop and the column loop. *)
Lemma computeMaxSizePerColumn_matrix (vals : list number) (r c : nat) (dtype : string)
    (strides : list nat) :
  0 < c →
  last strides = Some c →
  computeMaxSizePerColumn vals [r; c] dtype strides =
  forLoop (λ row padPerCol,
    forLoop (λ j padPerCol,
      s ← valToString
             ((if isComplex dtype then createComplexTuples vals else Scalar <$> vals)
                !! (row * c + j)) (Some 0);
      Some (<[j := (padPerCol !!! j) `max` String.length s]> padPerCol))
      c 0 padPerCol)
    r 0 (replicate c 0).
Proof.
  intros Hpos Hlast. unfold computeMaxSizePerColumn. rewrite Hlast. simpl.
  destruct c as [|c']; [lia|]. set (c := S c') in *.
  replace (rowCount (r * (c * 1)) c) with r; [done|].
  unfold rowCount. replace (r * (c * 1) + c - 1) with (r * c + c') by lia.
  rewrite Nat.div_add_l by done. rewrite (Nat.div_small c' c) by lia. lia.
Qed.

(** The two loops over values that can all be rendered: every width is at
    least the unpadded length of each value of its column, and is the
    unpadded length of one of them. *)
Lemma widths_loop (vt : list (@element number)) (r c : nat) :
  (∀ k, k < r * c → is_Some (valToString (vt !! k) (Some 0))) →
  ∃ padPerCol,
    forLoop (λ row padPerCol,
      forLoop (λ j padPerCol,
        s ← valToString (vt !! (row * c + j)) (Some 0);
        Some (<[j := (padPerCol !!! j) `max` String.length s]> padPerCol))
        c 0 padPerCol)
      r 0 (replicate c 0) = Some padPerCol ∧
    length padPerCol = c ∧
    (∀ i j s, i < r → j < c → valToString (vt !! (i * c + j)) (Some 0) = Some s →
       String.length s ≤ padPerCol !!! j) ∧
    (0 < r → ∀ j, j < c →
       ∃ i s, i < r ∧ valToString (vt !! (i * c + j)) (Some 0) = Some s ∧
              padPerCol !!! j = String.length s).
Proof.
  intros Hvt.
  set (width k := from_option String.length 0 (valToString (vt !! k) (Some 0))).
  set (attained row j w := (row = 0 ∧ w = 0) ∨ ∃ i, i < row ∧ w = width (i * c + j)).
  destruct (forLoop_invariant
    (λ row pad, length pad = c ∧
                (∀ i j, i < row → j < c → width (i * c + j) ≤ pad !!! j) ∧
                (∀ j, j < c → attained row j (pad !!! j)))
    (λ row padPerCol,
       forLoop (λ j padPerCol,
         s ← valToString (vt !! (row * c + j)) (Some 0);
         Some (<[j := (padPerCol !!! j) `max` String.length s]> padPerCol))
         c 0 padPerCol)
    r 0 (replicate c 0)) as (padPerCol & Hloop & Hlength & Hwidth & Hatt).
  - split; [by rewrite length_replicate|]. split; [intros; lia|].
    intros j Hj. left. split; [done|]. by rewrite lookup_total_replicate_2.
  - intros row pad Hrow (Hlength & Hwidth & Hatt).
    destruct (forLoop_invariant
      (λ j pad', length pad' = c ∧
                 (∀ k, pad !!! k ≤ pad' !!! k) ∧
                 (∀ k, k < j → width (row * c + k) ≤ pad' !!! k) ∧
                 (∀ k, k < j → attained (S row) k (pad' !!! k)) ∧
                 (∀ k, j ≤ k → pad' !!! k = pad !!! k))
      (λ j padPerCol,
         s ← valToString (vt !! (row * c + j)) (Some 0);
         Some (<[j := (padPerCol !!! j) `max` String.length s]> padPerCol))
      c 0 pad) as (pad' & Hinner & Hlength' & Hmono & Hrow' & Hatt' & _).
    + split; [done|]. split; [done|]. split; [intros; lia|].
      split; [intros; lia | done].
    + intros j t Hj (Hlt & Hmt & Hwt & Hat & Hrest).
      destruct (Hvt (row * c + j)) as [s Hs]; [nia|].
      rewrite Hs. simpl. eexists. split; [done|].
      assert (width (row * c + j) = String.length s) as Hw
        by (unfold width; by rewrite Hs).
      split; [by rewrite length_insert|]. split; [|split; [|split]].
      * intros k. rewrite list_lookup_total_insert. case_decide; [|done].
        destruct_and!; subst. specialize (Hmt k). lia.
      * intros k Hk. rewrite list_lookup_total_insert. case_decide.
        -- destruct_and!; subst. lia.
        -- assert (k < j) by lia. by apply Hwt.
      * intros k Hk. rewrite list_lookup_total_insert. case_decide.
        -- destruct_and!; subst k. right. rewrite (Hrest j) by lia.
           destruct (Hatt j) as [[-> Hzero]|(i & Hi & Hpi)]; [lia | |].
           ++ exists 0. split; [lia|]. rewrite Hzero. simpl in *. lia.
           ++ destruct (decide (pad !!! j ≤ String.length s)).
              ** exists row. split; [lia|]. lia.
              ** exists i. split; [lia|]. lia.
        -- assert (k < j) by lia. by apply Hat.
      * intros k Hk. rewrite list_lookup_total_insert_ne by lia. apply Hrest. lia.
    + exists pad'. split; [done|]. split; [done|]. split.
      * intros i j Hi Hj. destruct (decide (i = row)) as [->|].
        -- by apply Hrow'.
        -- etrans; [apply Hwidth; [lia|done] | apply Hmono].
      * intros j Hj. by apply Hatt'.
  - exists padPerCol. split; [done|]. split; [done|]. split.
    + intros i j s Hi Hj Hs. specialize (Hwidth i j Hi Hj).
      unfold width in Hwidth. by rewrite Hs in Hwidth.
    + intros Hr j Hj. destruct (Hatt j Hj) as [[Hz _]|(i & Hi & Hpi)]; [lia|].
      destruct (Hvt (i * c + j)) as [s Hs]; [nia|].
      exists i, s. split; [done|]. split; [done|].
      rewrite Hpi. unfold width. by rewrite Hs.
Qed.

End Widths.

Section Columns.

Context {number : Type} `{JsNumber number}.

Lemma valToString_scalar_zero (vals : list number) (k : nat) (val : number) :
  vals !! k = Some val →
  valToString ((Scalar <$> vals) !! k) (Some 0) = Some (numToString val).
Proof.
  intros Hval. rewrite list_lookup_fmap, Hval. simpl. by rewrite append_empty_r.
Qed.

(** X5. For a matrix of a dtype other than complex64 with [r] rows and [c]
    columns (at least one) and strides that end with [c], the width
    calculator returns exactly when the buffer has the [r * c] values of the
    shape, and so does the top-level function: on a shorter buffer it throws
    while measuring the first missing value. *)
Theorem real_matrix_needs_its_buffer (computeStrides : list nat → list nat)
    (vals : list number) (r c : nat) (dtype : string) (verbose : bool) :
  isComplex dtype = false →
  0 < c →
  last (computeStrides [r; c]) = Some c →
  (is_Some (computeMaxSizePerColumn vals [r; c] dtype (computeStrides [r; c])) ↔
   r * c ≤ length vals) ∧
  (is_Some (tensorToString computeStrides vals [r; c] dtype verbose) ↔
   r * c ≤ length vals).
Proof.
  intros Hc Hpos Hlast.
  assert (is_Some (computeMaxSizePerColumn vals [r; c] dtype (computeStrides [r; c])) ↔
          r * c ≤ length vals) as Hwidths.
  { rewrite computeMaxSizePerColumn_matrix by done. rewrite Hc. split.
    - intros [padPerCol Hloop].
      destruct r as [|r']; [simpl; lia|].
      destruct (forLoop_Some_inv _ _ _ _ _ Hloop r') as (t & t' & Hinner); [lia|].
      destruct (forLoop_Some_inv _ _ _ _ _ Hinner (c - 1)) as (u & u' & Hbody); [lia|].
      destruct ((Scalar <$> vals) !! (r' * c + (c - 1))) as [x|] eqn:Hx; [|done].
      apply lookup_lt_Some in Hx. rewrite length_fmap in Hx. lia.
    - intros Hlen. destruct (widths_loop (Scalar <$> vals) r c) as (padPerCol & -> & _);
        [|eauto].
      intros k Hk. destruct (lookup_lt_is_Some_2 vals k) as [val Hval]; [lia|].
      rewrite (valToString_scalar_zero _ _ _ Hval). eauto. }
  split; [done|].
  rewrite <- Hwidths, tensorToString_layout.
  destruct (computeMaxSizePerColumn _ _ _ _) as [padPerCol|];
    cbn [mbind option_bind].
  - destruct (subTensorToString_real_is_Some [r; c] vals dtype (computeStrides [r; c])
                padPerCol true) as [lines ->]; [done | simpl; lia |].
    split; eauto.
  - split; intros [? ?]; done.
Qed.

(** X8. The widths of a matrix of a dtype other than complex64 are the
    column maxima: the width of column [j] is at least the unpadded length
    of every value of the column, and it is the unpadded length of one of
    them. *)
Theorem real_matrix_widths_are_maxima (vals : list number) (r c : nat) (dtype : string)
    (strides : list nat) :
  isComplex dtype = false →
  length vals = r * c →
  0 < r →
  last strides = Some c →
  ∃ padPerCol,
    computeMaxSizePerColumn vals [r; c] dtype strides = Some padPerCol ∧
    length padPerCol = c ∧
    ∀ j, j < c →
      (∀ i val, i < r → vals !! (i * c + j) = Some val →
         String.length (numToString val) ≤ padPerCol !!! j) ∧
      (∃ i val, i < r ∧ vals !! (i * c + j) = Some val ∧
         padPerCol !!! j = String.length (numToString val)).
Proof.
  intros Hc Hlen Hr Hlast.
  destruct (decide (c = 0)) as [->|Hpos].
  { exists []. split; [|split; [done | intros; lia]].
    unfold computeMaxSizePerColumn. rewrite Hlast.
    replace (Util.sizeFromShape [r; 0]) with 0
      by (unfold Util.sizeFromShape; simpl; lia).
    done. }
  rewrite computeMaxSizePerColumn_matrix by (done || lia). rewrite Hc.
  destruct (widths_loop (Scalar <$> vals) r c)
    as (padPerCol & -> & Hlength & Hwidth & Hatt).
  { intros k Hk. destruct (lookup_lt_is_Some_2 vals k) as [val Hval]; [lia|].
    rewrite (valToString_scalar_zero _ _ _ Hval). eauto. }
  exists padPerCol. split; [done|]. split; [done|].
  intros j Hj. split.
  - intros i val Hi Hval.
    apply (Hwidth i j _ Hi Hj). by apply valToString_scalar_zero.
  - destruct (Hatt Hr j Hj) as (i & s & Hi & Hs & Hpad).
    destruct (lookup_lt_is_Some_2 vals (i * c + j)) as [val Hval]; [nia|].
    rewrite (valToString_scalar_zero _ _ _ Hval) in Hs. injection Hs as <-.
    eauto.
Qed.

End Columns.

Lemma real_matrix_needs_its_buffer_witness :
  isComplex "float32" = false ∧ 0 < 2 ∧ last [2] = Some 2 ∧
  (is_Some (tensorToString (λ _, [2]) (int <$> [1; 2; 3]%Z) [2; 2] "float32" false) ↔
   2 * 2 ≤ length (int <$> [1; 2; 3]%Z)).
Proof.
  split; [reflexivity|]. split; [lia|]. split; [reflexivity|].
  apply (real_matrix_needs_its_buffer (λ _, [2]) (int <$> [1; 2; 3]%Z) 2 2 "float32" false);
    [reflexivity | lia | reflexivity].
Defined.

Lemma real_matrix_widths_are_maxima_witness :
  isComplex "float32" = false ∧ length (int <$> [1; 2; 3; 44]%Z) = 2 * 2 ∧ 0 < 2 ∧
  last [2] = Some 2 ∧
  ∃ padPerCol,
    computeMaxSizePerColumn (int <$> [1; 2; 3; 44]%Z) [2; 2] "float32" [2] = Some padPerCol ∧
    length padPerCol = 2 ∧
    ∀ j, j < 2 →
      (∀ i val, i < 2 → (int <$> [1; 2; 3; 44]%Z) !! (i * 2 + j) = Some val →
         String.length (numToString val) ≤ padPerCol !!! j) ∧
      (∃ i val, i < 2 ∧ (int <$> [1; 2; 3; 44]%Z) !! (i * 2 + j) = Some val ∧
         padPerCol !!! j = String.length (numToString val)).
Proof.
  split; [reflexivity|]. split; [reflexivity|]. split; [lia|]. split; [reflexivity|].
  apply (real_matrix_widths_are_maxima (int <$> [1; 2; 3; 44]%Z) 2 2 "float32" [2]);
    [reflexivity | reflexivity | lia | reflexivity].
Defined.

Lemma real_matrix_columns_aligned_witness :
  isComplex "float32" = false ∧ length (int <$> [1; 2; 3; 44]%Z) = 2 * 2 ∧
  last [2] = Some 2 ∧
  ∃ padPerCol,
    computeMaxSizePerColumn (int <$> [1; 2; 3; 44]%Z) [2; 2] "float32" [2] = Some padPerCol ∧
    length padPerCol = 2 ∧
    ∀ i j val, i < 2 → j < 2 → (int <$> [1; 2; 3; 44]%Z) !! (i * 2 + j) = Some val →
      String.length (Util.rightPad (numToString val) (padPerCol !! j)) = padPerCol !!! j.
Proof.
  split; [reflexivity|]. split; [reflexivity|]. split; [reflexivity|].
  apply (real_matrix_columns_aligned (int <$> [1; 2; 3; 44]%Z) 2 2 "float32" [2]);
    reflexivity.
Defined.

(** ** Vectors and the last sibling *)

Section Frames.

Context {number : Type} `{JsNumber number}.

Lemma imap_unpadded (column : nat → nat) (xs : list number) :
  imap (λ i x, Util.rightPad (numToString x) (@nil nat !! column i)) xs =
  numToString <$> xs.
Proof. rewrite <- imap_const. by apply imap_ext. Qed.

(** X6. The output for a vector of a dtype other than complex64 whose
    buffer has the [size] values of the shape, whatever the strides: no value
    is padded; up to 20 values are all listed, and of more than 20 the first
    three and the last three are, around one ellipsis. *)
Theorem real_vector_output (computeStrides : list nat → list nat)
    (vals : list number) (size : nat) (dtype : string) :
  isComplex dtype = false →
  length vals = size →
  tensorToString computeStrides vals [size] dtype false =
  Some ("Tensor" +:+ LF +:+ "    [" +:+
        (if FORMAT_LIMIT_NUM_VALS <? size then
           join ", " (numToString <$> take 3 vals) +:+ ", ..., " +:+
           join ", " (numToString <$> drop (size - 3) vals)
         else join ", " (numToString <$> vals)) +:+ "]").
Proof.
  intros Hc Hlen. rewrite tensorToString_low_rank by (simpl; lia).
  rewrite subTensorToString_real_vector by done.
  unfold subarray. rewrite (take_ge (drop (size - 3) vals))
    by (rewrite length_drop; lia).
  rewrite (imap_unpadded (λ i, i) (take 3 vals)), (imap_unpadded (λ i, i) vals).
  rewrite (imap_unpadded (λ i, size - 3 + i)). done.
Qed.

(** The last line does not depend on [isLast] up to what follows its
    closing bracket, and the other lines do not depend on it at all. *)
Lemma wrapLines_last_uniform (rank : nat) (lines : list string) :
  ∃ init body, ∀ isLast,
    wrapLines rank isLast lines =
    init ++ [body +:+ "]" +:+
             (if isLast then "" else "," +:+ LF +:+ repeatString LF (rank - 2))].
Proof.
  unfold wrapLines.
  set (sep := if rank =? 2 then "," else "").
  set (lines1 := match lines !! 0 with
                 | Some l => <[0:="[" +:+ l +:+ sep]> lines
                 | None => ["[" +:+ "undefined" +:+ sep]
                 end).
  set (lines2 := imap _ lines1).
  assert (lines2 ≠ []) as Hne.
  { intros Heq. apply (f_equal length) in Heq. unfold lines2 in Heq.
    rewrite length_imap in Heq. unfold lines1 in Heq.
    destruct lines as [|l lines]; simpl in Heq; done. }
  destruct (exists_last Hne) as (init & l & Heq).
  exists init, (" " +:+ l). intros isLast.
  rewrite Heq, length_app. simpl.
  replace (length init + 1 - 1) with (length init + 0) by lia.
  rewrite alter_app_r. simpl. done.
Qed.

(** X12. [isLast] only decides what follows the closing bracket of the last
    line: the lines rendered with [isLast = false] are those rendered with
    [isLast = true], with the separator (a comma, a line feed, and one more
    line feed per level beyond the second) appended to the last one when the
    rank is 2 or more, and with nothing changed at rank 0 and 1. Neither
    call returns when the other throws. *)
Theorem isLast_only_ends_the_last_line (vals : list number) (shape : list nat)
    (dtype : string) (strides padPerCol : list nat) :
  match subTensorToString vals shape dtype strides padPerCol true with
  | Some lines =>
      ∃ init l,
        lines = init ++ [l] ∧
        subTensorToString vals shape dtype strides padPerCol false =
        Some (init ++ [l +:+ (if 2 <=? length shape
                              then "," +:+ LF +:+ repeatString LF (length shape - 2)
                              else "")])
  | None => subTensorToString vals shape dtype strides padPerCol false = None
  end.
Proof.
  destruct shape as [|size [|d rest]].
  - rewrite (subTensorToString_scalar _ _ _ _ false).
    rewrite (subTensorToString_scalar _ _ strides _ true).
    destruct (subTensorToString vals [] dtype [] [] true) as [lines|] eqn:Hl; [|done].
    simpl in Hl. destruct (isComplex dtype); simplify_option_eq;
      eexists [], _; by rewrite append_empty_r.
  - assert (subTensorToString vals [size] dtype strides padPerCol false =
            subTensorToString vals [size] dtype strides padPerCol true) as -> by done.
    destruct (subTensorToString vals [size] dtype strides padPerCol true)
      as [lines|] eqn:Hl; [|done].
    simpl in Hl. destruct (FORMAT_LIMIT_NUM_VALS <? size); simplify_option_eq;
      eexists [], _; by rewrite append_empty_r.
  - rewrite !subTensorToString_nested.
    destruct (collectLines _ _) as [sub|]; [|done].
    cbn [mbind option_bind].
    destruct (wrapLines_last_uniform (length (size :: d :: rest)) sub)
      as (init & body & Hwrap).
    rewrite !Hwrap. exists init, (body +:+ "]" +:+ "").
    split; [done|]. simpl. by rewrite !append_assoc.
Qed.

(** X13. The element type is only tested for being complex64: without the
    verbose lines, two dtypes that are both complex64 or both not give the
    same widths, the same lines and the same output. *)
Theorem dtype_is_only_tested_for_complex (computeStrides : list nat → list nat)
    (dtype dtype' : string) (vals : list number) (shape strides padPerCol : list nat)
    (isLast : bool) :
  isComplex dtype = isComplex dtype' →
  computeMaxSizePerColumn vals shape dtype strides =
    computeMaxSizePerColumn vals shape dtype' strides ∧
  subTensorToString vals shape dtype strides padPerCol isLast =
    subTensorToString vals shape dtype' strides padPerCol isLast ∧
  tensorToString computeStrides vals shape dtype false =
    tensorToString computeStrides vals shape dtype' false.
Proof.
  intros Hc. split; [by apply computeMaxSizePerColumn_dtype|].
  split; [by apply subTensorToString_dtype | by apply tensorToString_dtype].
Qed.

End Frames.

Lemma real_vector_output_witness :
  isComplex "int32" = false ∧ length (int <$> [1; 2; 3]%Z) = 3 ∧
  tensorToString Util.computeStrides (int <$> [1; 2; 3]%Z) [3] "int32" false =
  Some ("Tensor" +:+ LF +:+ "    [" +:+ "1, 2, 3" +:+ "]").
Proof.
  split; [reflexivity|]. split; [reflexivity|].
  exact (real_vector_output Util.computeStrides (int <$> [1; 2; 3]%Z) 3 "int32"
           eq_refl eq_refl).
Defined.

Lemma dtype_is_only_tested_for_complex_witness :
  isComplex "int32" = isComplex "bool" ∧
  tensorToString Util.computeStrides (int <$> [1; 0]%Z) [2] "int32" false =
  tensorToString Util.computeStrides (int <$> [1; 0]%Z) [2] "bool" false.
Proof.
  split; [reflexivity|].
  apply (dtype_is_only_tested_for_complex Util.computeStrides "int32" "bool"
           (int <$> [1; 0]%Z) [2] [] [] true).
  reflexivity.
Defined.

(** ** The lines of a matrix *)

Section Matrices.

Context {number : Type} `{JsNumber number}.

Lemma forLoop_rows (render : nat → bool → option (list string)) (isLast : nat → bool)
    (rows : list string) (count start : nat) (lines : list string) :
  start + count ≤ length rows →
  (∀ i row, rows !! i = Some row → render i (isLast i) = Some [row]) →
  forLoop (λ i lines, sub ← render i (isLast i); Some (lines ++ sub)) count start lines =
  Some (lines ++ take count (drop start rows)).
Proof.
  intros Hlen Hrows. revert start lines Hlen.
  induction count as [|count IH]; intros start lines Hlen; simpl.
  - by rewrite app_nil_r.
  - destruct (lookup_lt_is_Some_2 rows start) as [row Hrow]; [lia|].
    rewrite (Hrows start row Hrow). simpl. rewrite IH by lia.
    rewrite (drop_S _ _ _ Hrow). simpl. by rewrite <- app_assoc.
Qed.

(** When every sub-tensor is rendered as one line, the lines collected are
    these lines, or the first three and the last three of them around the
    ellipsis line. *)
Lemma collectLines_rows (render : nat → bool → option (list string))
    (rows : list string) (size : nat) :
  length rows = size →
  (∀ i row isLast, rows !! i = Some row → render i isLast = Some [row]) →
  collectLines render size =
  Some (if FORMAT_LIMIT_NUM_VALS <? size
        then take 3 rows ++ ["..."] ++ drop (size - 3) rows
        else rows).
Proof.
  intros Hlen Hrows. unfold collectLines.
  destruct (FORMAT_LIMIT_NUM_VALS <? size) eqn:Hlimit.
  - apply Nat.ltb_lt in Hlimit. unfold FORMAT_LIMIT_NUM_VALS in Hlimit.
    pose proof (forLoop_rows render (λ _, false) rows 3 0 []) as Hfirst.
    cbv beta in Hfirst. unfold FORMAT_NUM_FIRST_LAST_VALS.
    rewrite Hfirst; [|lia|eauto]. cbn [mbind option_bind].
    pose proof (forLoop_rows render (λ i, i =? size - 1) rows 3 (size - 3)) as Hlast.
    cbv beta in Hlast. rewrite Hlast; [|lia|eauto].
    rewrite (take_ge (drop (size - 3) rows)) by (rewrite length_drop; lia).
    simpl. by rewrite <- app_assoc.
  - pose proof (forLoop_rows render (λ i, i =? size - 1) rows size 0 []) as Hall.
    cbv beta in Hall. rewrite Hall; [|lia|eauto].
    rewrite drop_0, take_ge by lia. done.
Qed.

(** The brackets and separators around two lines or more: an opening
    bracket before the first line and a space before the others, the closing
    bracket after the last line and [sep] after the others. *)
Lemma wrapLines_imap (rank : nat) (isLast : bool) (lines : list string) :
  2 ≤ length lines →
  wrapLines rank isLast lines =
  imap (λ i l,
    (if i =? 0 then "[" else " ") +:+ l +:+
    (if i =? length lines - 1
     then "]" +:+ (if isLast then ""
                   else "," +:+ LF +:+ repeatString LF (rank - 2))
     else if rank =? 2 then "," else "")) lines.
Proof.
  intros Hlen. destruct lines as [|l0 rest]; [simpl in Hlen; lia|].
  unfold wrapLines. cbn [lookup list_lookup].
  apply list_eq. intros i.
  rewrite list_lookup_alter, !list_lookup_imap, length_imap, length_insert.
  cbn [length] in *.
  destruct (decide (i = 0)) as [->|Hi0].
  - rewrite decide_False by lia. cbn [lookup list_lookup insert list_insert fmap option_fmap option_map].
    replace (0 =? S (length rest) - 1) with false
      by (symmetry; apply Nat.eqb_neq; lia).
    simpl. done.
  - destruct (decide (S (length rest) - 1 = i)) as [<-|Hlast];
      rewrite ?list_lookup_insert_ne by lia.
    + destruct ((l0 :: rest) !! (S (length rest) - 1)) as [l|]; [|done].
      cbn [fmap option_fmap option_map].
      replace (S (length rest) - 1 <? S (length rest) - 1) with false
        by (symmetry; apply Nat.ltb_ge; lia).
      rewrite andb_false_r, Nat.eqb_refl.
      replace (S (length rest) - 1 =? 0) with false
        by (symmetry; apply Nat.eqb_neq; lia).
      done.
    + destruct ((l0 :: rest) !! i) as [l|] eqn:Hl; [|done].
      apply lookup_lt_Some in Hl. cbn [length] in Hl.
      cbn [fmap option_fmap option_map].
      replace (1 <=? i) with true by (symmetry; apply Nat.leb_le; lia).
      replace (i <? S (length rest) - 1) with true
        by (symmetry; apply Nat.ltb_lt; lia).
      replace (i =? 0) with false by (symmetry; apply Nat.eqb_neq; lia).
      replace (i =? S (length rest) - 1) with false
        by (symmetry; apply Nat.eqb_neq; lia).
      done.
Qed.

End Matrices.

Section MatrixLines.

Context {number : Type} `{JsNumber number}.

Lemma matrix_from_rows (vals : list number) (r c : nat) (dtype : string)
    (strides padPerCol : list nat) (isLast : bool) (rows : list string) :
  length rows = r →
  (∀ i row isLast', rows !! i = Some row →
     subTensorToString
       (slice vals ((λ s, s * (if isComplex dtype then 2 else 1)) <$> strides !! 0) i)
       [c] dtype (drop 1 strides) padPerCol isLast' = Some [row]) →
  subTensorToString vals [r; c] dtype strides padPerCol isLast =
  Some (wrapLines 2 isLast
          (if FORMAT_LIMIT_NUM_VALS <? r
           then take 3 rows ++ ["..."] ++ drop (r - 3) rows
           else rows)).
Proof.
  intros Hlen Hrows. rewrite subTensorToString_nested.
  erewrite (collectLines_rows _ rows); [done | done |].
  intros i row isLast' Hrow. by apply Hrows.
Qed.

Lemma real_rows_exist (vals : list number) (r c : nat) (dtype : string)
    (stride : option nat) (padPerCol : list nat) :
  isComplex dtype = false →
  ∃ rows, length rows = r ∧
    ∀ i row strides isLast, rows !! i = Some row →
      subTensorToString (slice vals stride i) [c] dtype strides padPerCol isLast =
      Some [row].
Proof.
  intros Hc. induction r as [|r (rows & Hlen & Hrows)].
  - exists []. split; [done|]. intros i row ? ? Hrow. done.
  - eexists (rows ++ [_]). split; [rewrite length_app; simpl; lia|].
    intros i row strides isLast Hrow.
    destruct (decide (i < r)) as [Hi|Hi].
    + rewrite lookup_app_l in Hrow by lia. by apply Hrows.
    + rewrite lookup_app_r in Hrow by lia.
      apply list_lookup_singleton_Some in Hrow as [Hi' <-].
      assert (i = r) as -> by lia.
      apply subTensorToString_real_vector. done.
Qed.

(** X10. The lines of a matrix of a dtype other than complex64 with two
    rows or more: each row is rendered as one line; up to 20 rows are all
    shown, and of more than 20 the first three and the last three are,
    around a line [...]. The first line shown gets an opening bracket in
    front and the others a space; the last one gets the closing bracket
    (and the separator when the matrix is not the last sibling), the others,
    the ellipsis line included, a comma. *)
Theorem real_matrix_lines (vals : list number) (r c : nat) (dtype : string)
    (strides padPerCol : list nat) (isLast : bool) :
  isComplex dtype = false →
  2 ≤ r →
  strides !! 0 = Some c →
  ∃ rows,
    length rows = r ∧
    (∀ i row, rows !! i = Some row →
       subTensorToString (slice vals (Some c) i) [c] dtype (drop 1 strides)
         padPerCol true = Some [row]) ∧
    let shown :=
      if FORMAT_LIMIT_NUM_VALS <? r
      then take 3 rows ++ ["..."] ++ drop (r - 3) rows else rows in
    subTensorToString vals [r; c] dtype strides padPerCol isLast =
    Some (imap (λ i l,
            (if i =? 0 then "[" else " ") +:+ l +:+
            (if i =? length shown - 1
             then "]" +:+ (if isLast then "" else "," +:+ LF)
             else ",")) shown).
Proof.
  intros Hc Hr Hstride.
  destruct (real_rows_exist vals r c dtype (Some c) padPerCol Hc)
    as (rows & Hlen & Hrows).
  exists rows. split; [done|]. split; [intros; by apply Hrows|].
  intros shown.
  rewrite (matrix_from_rows _ _ _ _ _ _ _ rows Hlen).
  2:{ intros i row isLast' Hrow. rewrite Hstride, Hc.
      cbn [fmap option_fmap option_map]. rewrite Nat.mul_1_r. by apply Hrows. }
  fold shown. rewrite wrapLines_imap.
  - reflexivity.
  - unfold shown. destruct (FORMAT_LIMIT_NUM_VALS <? r).
    + rewrite !length_app, length_take. cbn [length]. lia.
    + lia.
Qed.

(** X11. A matrix of a dtype other than complex64 with a single row is
    rendered as one line: a space, the two opening brackets, the row, then a
    comma before the closing bracket. *)
Theorem single_row_matrix (vals : list number) (c : nat) (dtype : string)
    (strides padPerCol : list nat) (isLast : bool) :
  isComplex dtype = false →
  strides !! 0 = Some c →
  ∃ row,
    subTensorToString (slice vals (Some c) 0) [c] dtype (drop 1 strides)
      padPerCol true = Some ["[" +:+ row +:+ "]"] ∧
    subTensorToString vals [1; c] dtype strides padPerCol isLast =
    Some [" [[" +:+ row +:+ "],]" +:+ (if isLast then "" else "," +:+ LF)].
Proof.
  intros Hc Hstride.
  pose proof (subTensorToString_real_vector (slice vals (Some c) 0) c dtype
                (drop 1 strides) padPerCol true Hc) as Hrow.
  match type of Hrow with _ = Some ["[" +:+ ?line +:+ "]"] => set (row := line) in * end.
  exists row. split; [done|].
  rewrite (matrix_from_rows _ _ _ _ _ _ _ ["[" +:+ row +:+ "]"] eq_refl).
  2:{ intros i l isLast' Hl. rewrite Hstride, Hc.
      cbn [fmap option_fmap option_map]. rewrite Nat.mul_1_r.
      destruct i as [|i]; [|done].
      injection Hl as <-. by apply subTensorToString_real_vector. }
  unfold wrapLines. simpl. rewrite !append_assoc. by destruct isLast.
Qed.

(** X14. A matrix of two rows or more without columns (an innermost
    dimension of size 0, so a stride of 0 between the rows), of any dtype:
    every row is rendered as [[]], with the brackets and separators of any
    matrix around the rows shown. *)
Theorem empty_inner_dimension (vals : list number) (r : nat) (dtype : string)
    (strides padPerCol : list nat) (isLast : bool) :
  2 ≤ r →
  strides !! 0 = Some 0 →
  let rows := replicate r "[]" in
  let shown :=
    if FORMAT_LIMIT_NUM_VALS <? r
    then take 3 rows ++ ["..."] ++ drop (r - 3) rows else rows in
  subTensorToString vals [r; 0] dtype strides padPerCol isLast =
  Some (imap (λ i l,
          (if i =? 0 then "[" else " ") +:+ l +:+
          (if i =? length shown - 1
           then "]" +:+ (if isLast then "" else "," +:+ LF)
           else ",")) shown).
Proof.
  intros Hr Hstride rows shown.
  rewrite (matrix_from_rows _ _ _ _ _ _ _ rows).
  2:{ unfold rows. by rewrite length_replicate. }
  2:{ intros i row isLast' [-> _]%lookup_replicate. rewrite Hstride.
      assert (slice vals ((λ s, s * (if isComplex dtype then 2 else 1)) <$> Some 0) i = [])
        as ->.
      { simpl. unfold subarray. by replace (i * 0 + 0 - i * 0) with 0 by lia. }
      simpl. by destruct (isComplex dtype). }
  fold shown. rewrite wrapLines_imap.
  - reflexivity.
  - unfold shown, rows. destruct (FORMAT_LIMIT_NUM_VALS <? r).
    + rewrite !length_app, length_take, length_replicate. cbn [length]. lia.
    + rewrite length_replicate. lia.
Qed.

End MatrixLines.

Lemma real_matrix_lines_witness :
  isComplex "float32" = false ∧ 2 ≤ 2 ∧ [2] !! 0 = Some 2 ∧
  ∃ rows,
    length rows = 2 ∧
    (∀ i row, rows !! i = Some row →
       subTensorToString (slice (int <$> [1; 2; 3; 44]%Z) (Some 2) i) [2] "float32"
         (drop 1 [2]) [1; 2] true = Some [row]) ∧
    let shown :=
      if FORMAT_LIMIT_NUM_VALS <? 2
      then take 3 rows ++ ["..."] ++ drop (2 - 3) rows else rows in
    subTensorToString (int <$> [1; 2; 3; 44]%Z) [2; 2] "float32" [2] [1; 2] true =
    Some (imap (λ i l,
            (if i =? 0 then "[" else " ") +:+ l +:+
            (if i =? length shown - 1
             then "]" +:+ (if true then "" else "," +:+ LF)
             else ",")) shown).
Proof.
  split; [reflexivity|]. split; [lia|]. split; [reflexivity|].
  apply (real_matrix_lines (int <$> [1; 2; 3; 44]%Z) 2 2 "float32" [2] [1; 2] true);
    [reflexivity | lia | reflexivity].
Defined.

Lemma single_row_matrix_witness :
  isComplex "float32" = false ∧ [3] !! 0 = Some 3 ∧
  ∃ row,
    subTensorToString (slice (int <$> [1; 2; 3]%Z) (Some 3) 0) [3] "float32" (drop 1 [3])
      [1; 1; 1] true = Some ["[" +:+ row +:+ "]"] ∧
    subTensorToString (int <$> [1; 2; 3]%Z) [1; 3] "float32" [3] [1; 1; 1] true =
    Some [" [[" +:+ row +:+ "],]" +:+ ""].
Proof.
  split; [reflexivity|]. split; [reflexivity|].
  apply (single_row_matrix (int <$> [1; 2; 3]%Z) 3 "float32" [3] [1; 1; 1] true);
    reflexivity.
Defined.

Lemma empty_inner_dimension_witness :
  2 ≤ 2 ∧ [0] !! 0 = Some 0 ∧
  subTensorToString (@nil Decimal.number) [2; 0] "float32" [0] [] true =
  Some ["[[],"; " []]"].
Proof.
  split; [lia|]. split; [reflexivity|].
  apply (empty_inner_dimension (@nil Decimal.number) 2 "float32" [0] [] true);
    [lia | reflexivity].
Defined.

(** ** The columns of a complex matrix *)

Section ComplexColumns.

Context {number : Type} `{JsNumber number}.

(** Padding a value that is rendered adds spaces up to the width. *)
Lemma valToString_padded (val : option (@element number)) (w : nat) (s0 : string) :
  valToString val (Some 0) = Some s0 →
  ∃ s, valToString val (Some w) = Some s ∧
       String.length s = String.length s0 `max` w.
Proof.
  destruct val as [[val|re [im|]]|]; simpl; intros Hs0; simplify_eq.
  - eexists. split; [done|].
    rewrite !length_append, !length_repeatString. simpl. lia.
  - eexists. split; [done|].
    rewrite !length_append, !length_repeatString. simpl.
    rewrite !length_append. simpl. lia.
Qed.

(** The tuples of a buffer that holds both parts of [n] elements. *)
Lemma createComplexTuples_complete (vals : list number) (n k : nat) :
  length vals = 2 * n → k < n →
  ∃ re im, createComplexTuples vals !! k = Some (Tuple re (Some im)).
Proof.
  intros Hlen Hk.
  rewrite (createComplexTuples_lookup_le (length vals)) by done.
  destruct (lookup_lt_is_Some_2 vals (2 * k)) as [re ->]; [lia|].
  destruct (lookup_lt_is_Some_2 vals (2 * k + 1)) as [im ->]; [lia|].
  simpl. eauto.
Qed.

(** The tuples of the slice of row [i] are the tuples of the buffer from
    [i * c] on. *)
Lemma createComplexTuples_slice (vals : list number) (c i j : nat) :
  j < c →
  createComplexTuples (slice vals (Some (c * 2)) i) !! j =
  createComplexTuples vals !! (i * c + j).
Proof.
  intros Hj. unfold slice, subarray.
  rewrite (createComplexTuples_lookup_le (length vals) vals) by done.
  rewrite (createComplexTuples_lookup_le
             (length (take (i * (c * 2) + c * 2 - i * (c * 2)) (drop (i * (c * 2)) vals))))
    by done.
  rewrite !lookup_take_lt by lia. rewrite !lookup_drop.
  replace (i * (c * 2) + 2 * j) with (2 * (i * c + j)) by lia.
  replace (i * (c * 2) + (2 * j + 1)) with (2 * (i * c + j) + 1) by lia.
  done.
Qed.

(** X9. A complex matrix with at most 20 columns, whose buffer has both
    parts of its [r * c] elements, and strides that end with [c]: the width
    calculator returns, and every row slice is rendered as one line whose
    cells have exactly the widths of their columns. *)
Theorem complex_matrix_columns_aligned (vals : list number) (r c : nat) (dtype : string)
    (strides strides' : list nat) (isLast : bool) :
  isComplex dtype = true →
  c ≤ FORMAT_LIMIT_NUM_VALS →
  length vals = 2 * (r * c) →
  last strides = Some c →
  ∃ padPerCol,
    computeMaxSizePerColumn vals [r; c] dtype strides = Some padPerCol ∧
    ∀ i, i < r →
      ∃ shown,
        subTensorToString (slice vals (Some (c * 2)) i) [c] dtype strides'
          padPerCol isLast = Some ["[" +:+ join ", " shown +:+ "]"] ∧
        Forall2 (λ s w, String.length s = w) shown padPerCol.
Proof.
  intros Hc Hlimit Hlen Hlast.
  assert (∃ padPerCol,
    computeMaxSizePerColumn vals [r; c] dtype strides = Some padPerCol ∧
    length padPerCol = c ∧
    ∀ i j s, i < r → j < c →
      valToString (createComplexTuples vals !! (i * c + j)) (Some 0) = Some s →
      String.length s ≤ padPerCol !!! j) as (padPerCol & Hpad & Hlength & Hwidth).
  { destruct (decide (c = 0)) as [->|Hpos].
    - exists []. split; [|split; [done | intros; lia]].
      unfold computeMaxSizePerColumn. rewrite Hlast.
      replace (Util.sizeFromShape [r; 0]) with 0
        by (unfold Util.sizeFromShape; simpl; lia).
      done.
    - rewrite computeMaxSizePerColumn_matrix by (done || lia). rewrite Hc.
      destruct (widths_loop (createComplexTuples vals) r c)
        as (padPerCol & -> & Hlength & Hwidth & _); [|eauto].
      intros k Hk.
      destruct (createComplexTuples_complete vals (r * c) k Hlen Hk) as (re & im & ->).
      simpl. eauto. }
  exists padPerCol. split; [done|]. intros i Hi.
  set (row := slice vals (Some (c * 2)) i).
  assert (length (createComplexTuples row) = c) as Hrow.
  { rewrite (createComplexTuples_length_le (length row)) by done.
    unfold row, slice, subarray. rewrite length_take, length_drop.
    replace ((i * (c * 2) + c * 2 - i * (c * 2)) `min` (length vals - i * (c * 2)))
      with (c * 2) by nia.
    rewrite Nat.div_add_l by done. by rewrite Nat.div_small, Nat.add_0_r by lia. }
  assert (∀ j x, createComplexTuples row !! j = Some x →
            j < c ∧ createComplexTuples vals !! (i * c + j) = Some x) as Hcell.
  { intros j x Hx. assert (j < c) as Hj.
    { apply lookup_lt_Some in Hx. lia. }
    split; [done|]. unfold row in Hx. by rewrite createComplexTuples_slice in Hx. }
  destruct (proj2 (cells_is_Some padPerCol 0 (createComplexTuples row))) as [shown Hshown].
  { apply Forall_lookup. intros j x Hx. destruct (Hcell j x Hx) as [Hj Hx'].
    destruct (createComplexTuples_complete vals (r * c) (i * c + j) Hlen) as (re & im & Htuple);
      [nia|].
    rewrite Htuple in Hx'. injection Hx' as <-. simpl. eauto. }
  exists shown. split.
  - simpl. rewrite Hc.
    replace (FORMAT_LIMIT_NUM_VALS <? c) with false
      by (symmetry; apply Nat.ltb_ge; done).
    fold row. by rewrite Hshown.
  - unfold cells in Hshown. apply mapM_Some_1 in Hshown.
    apply Forall2_same_length_lookup_2.
    + apply Forall2_length in Hshown. rewrite length_imap in Hshown. lia.
    + intros j s w Hs Hw.
      destruct (lookup_lt_is_Some_2 (createComplexTuples row) j) as [x Hx].
      { apply lookup_lt_Some in Hw. lia. }
      destruct (Hcell j x Hx) as [Hj Hx'].
      pose proof (Forall2_lookup_lr _ _ _ j
        (valToString (Some x) (padPerCol !! (0 + j))) s Hshown) as Hcellj.
      rewrite list_lookup_imap, Hx in Hcellj.
      specialize (Hcellj eq_refl Hs). unfold id in Hcellj.
      rewrite Nat.add_0_l, Hw in Hcellj.
      destruct (createComplexTuples_complete vals (r * c) (i * c + j) Hlen)
        as (re & im & Htuple); [nia|].
      assert (∃ s0, valToString (Some x) (Some 0) = Some s0) as [s0 Hs0].
      { rewrite Htuple in Hx'. injection Hx' as <-. simpl. eauto. }
      destruct (valToString_padded (Some x) w s0 Hs0) as (s' & Hs' & Hlen').
      assert (s' = s) as -> by congruence.
      rewrite <- Hx' in Hs0. specialize (Hwidth i j s0 Hi Hj Hs0).
      rewrite (list_lookup_total_correct _ _ _ Hw) in Hwidth. lia.
Qed.

End ComplexColumns.

Lemma complex_matrix_columns_aligned_witness :
  isComplex "complex64" = true ∧ 2 ≤ FORMAT_LIMIT_NUM_VALS ∧
  length (int <$> [1; 2; 3; 4; 5; 6; 700; 8]%Z) = 2 * (2 * 2) ∧ last [2] = Some 2 ∧
  ∃ padPerCol,
    computeMaxSizePerColumn (int <$> [1; 2; 3; 4; 5; 6; 700; 8]%Z) [2; 2] "complex64" [2] =
      Some padPerCol ∧
    ∀ i, i < 2 →
      ∃ shown,
        subTensorToString (slice (int <$> [1; 2; 3; 4; 5; 6; 700; 8]%Z) (Some (2 * 2)) i)
          [2] "complex64" [] padPerCol false = Some ["[" +:+ join ", " shown +:+ "]"] ∧
        Forall2 (λ s w, String.length s = w) shown padPerCol.
Proof.
  split; [reflexivity|]. split; [unfold FORMAT_LIMIT_NUM_VALS; lia|].
  split; [reflexivity|]. split; [reflexivity|].
  apply (complex_matrix_columns_aligned (int <$> [1; 2; 3; 4; 5; 6; 700; 8]%Z) 2 2
           "complex64" [2] [] false);
    [reflexivity | unfold FORMAT_LIMIT_NUM_VALS; lia | reflexivity | reflexivity].
Defined.
